(** * ESL Vocabulary Explorer: the assessment and quiz core

    A shallow embedding of the client-side assessment generator and grader
    ([components/modals/AssessmentModal.tsx]) and of the quiz session state
    ([components/modals/QuizModal.tsx]), with the properties the
    specification states about them. A second part embeds more of the two
    files (the question views, the results screen, the multiple-choice,
    spelling, scramble and collocation quizzes), their callers in
    [App.tsx] and the practice hub
    ([components/modals/PracticeHubModal.tsx]), with properties read off
    the code.

    Conventions of the embedding:
    - a JavaScript array is a [list]; indexing is stdpp's [!!], an in-place
      write is [<[i:=x]>];
    - a JavaScript object used as a dictionary is a [gmap string _];
    - a string is a [string] whose characters are the code units
      U+0000..U+00FF;
    - [Math.random()] is an oracle: the generator state is the infinite
      sequence of the values still to be returned, each a fraction of [0,1);
    - a function that may throw returns a [Result];
    - of [RegExp], the patterns made of literal characters and dots are
      interpreted, and the misplaced quantifiers that make the constructor
      throw are recognised; the composer takes the engine for the remaining
      patterns as a parameter. *)

From Stdlib Require Import ZArith Lia Ascii String.
From stdpp Require Import base numbers option list strings gmap pretty.

(** ** Exceptions *)

Inductive Error :=
  | TypeError (msg : string)
  | SyntaxError (msg : string).

Inductive Result (A : Type) :=
  | Ok (a : A)
  | Throw (e : Error).
Arguments Ok {A} a.
Arguments Throw {A} e.

(** ** The random source *)

(** A value of [Math.random()]: the fraction [numer/denom], below one. *)
Record Unit01 := {
  numer : nat;
  denom : nat;
  below_one : Nat.ltb numer denom = true
}.

(** The generator state: the values the next calls will return. *)
Definition RNG := nat → Unit01.

Definition Math_random (g : RNG) : Unit01 * RNG := (g 0, λ n, g (S n)).

(** [Math.floor(r * k)] for an array length [k]. *)
Definition floor_scaled (r : Unit01) (k : nat) : nat := (numer r * k) / denom r.

(** ** Computations that draw random numbers and may throw *)

Definition M (A : Type) : Type := RNG → Result (A * RNG).

Definition ret {A} (a : A) : M A := λ g, Ok (a, g).

Definition bind {A B} (m : M A) (k : A → M B) : M B :=
  λ g, match m g with
       | Ok (a, g') => k a g'
       | Throw e => Throw e
       end.

(** A computation that only draws random numbers never throws. *)
Definition lift {A} (f : RNG → A * RNG) : M A := λ g, Ok (f g).

Global Instance M_ret : MRet M := @ret.
Global Instance M_bind : MBind M := λ A B k m, bind m k.

(** A step that cannot draw random numbers but may throw. *)
Definition try_ {A} (r : Result A) : M A :=
  λ g, match r with Ok a => Ok (a, g) | Throw e => Throw e end.

(** ** The shuffler *)

Section shuffle.
Context {T : Type}.

(** [[a[i], a[j]] = [a[j], a[i]]]: both reads come first, then [a[i]] is
    written, then [a[j]]. The loop only swaps inside the array
    ([shuffle_loop_step]), so the branch for a read outside it, where
    JavaScript would store [undefined], is never taken. *)
Definition swap (i j : nat) (a : list T) : list T :=
  match a !! j, a !! i with
  | Some aj, Some ai => <[j:=ai]> (<[i:=aj]> a)
  | _, _ => a
  end.

(** The body of [while (currentIndex !== 0)], by recursion on
    [currentIndex]. *)
Fixpoint shuffle_loop (currentIndex : nat) (newArray : list T) (g : RNG)
  : list T * RNG :=
  match currentIndex with
  | 0 => (newArray, g)
  | S decremented =>
      let '(r, g') := Math_random g in
      let randomIndex := floor_scaled r currentIndex in
      shuffle_loop decremented (swap decremented randomIndex newArray) g'
  end.

(** [const newArray = [...array]] copies; on values the copy is the list
    itself. *)
Definition shuffleArray (array : list T) (g : RNG) : list T * RNG :=
  shuffle_loop (length array) array g.

(** *** The same function over a store of arrays

    To state that the argument is left alone, arrays live in a store and
    are passed by reference, as in JavaScript. *)

Abbreviation Ref := nat (only parsing).
Abbreviation Store := (gmap nat (list T)) (only parsing).

(** [[...array]]: a fresh array with the same elements. *)
Definition spread (elems : list T) (h : Store) : Ref * Store :=
  let r := fresh (dom h) in (r, <[r:=elems]> h).

Fixpoint shuffle_loop_ref (currentIndex : nat) (newArray : Ref) (h : Store)
    (g : RNG) : Store * RNG :=
  match currentIndex with
  | 0 => (h, g)
  | S decremented =>
      let '(r, g') := Math_random g in
      let randomIndex := floor_scaled r currentIndex in
      shuffle_loop_ref decremented newArray
        (alter (swap decremented randomIndex) newArray h) g'
  end.

(** [None] when [array] is not a reference of the store. *)
Definition shuffleArray_ref (array : Ref) (h : Store) (g : RNG)
  : option (Ref * Store * RNG) :=
  match h !! array with
  | None => None
  | Some elems =>
      let '(newArray, h1) := spread elems h in
      let '(h2, g') := shuffle_loop_ref (length elems) newArray h1 g in
      Some (newArray, h2, g')
  end.
End shuffle.

(** ** Strings

    The built-in string functions the core calls, over the code units
    U+0000..U+00FF. *)

Definition between (lo hi n : nat) : bool := (lo <=? n)%nat && (n <=? hi)%nat.

(** [toLowerCase] of one code unit: A-Z, and the Latin-1 capitals
    U+00C0..U+00DE without the multiplication sign U+00D7. *)
Definition lower_char (c : ascii) : ascii :=
  let n := nat_of_ascii c in
  if between 65 90 n || between 192 214 n || between 216 222 n
  then ascii_of_nat (n + 32) else c.

(** The canonical form a case-insensitive regular expression compares
    ([Canonicalize] without the [u] flag): the upper case of the code unit
    when that is again one code unit. The upper cases of U+00B5 and U+00FF
    lie outside Latin-1 and nothing else in Latin-1 shares them, U+00DF has
    none of one unit: the three stand for themselves. *)
Definition upper_char (c : ascii) : ascii :=
  let n := nat_of_ascii c in
  if between 97 122 n || between 224 246 n || between 248 254 n
  then ascii_of_nat (n - 32) else c.

Fixpoint toLowerCase (s : string) : string :=
  match s with
  | EmptyString => EmptyString
  | String c s' => String (lower_char c) (toLowerCase s')
  end.

(** White space and line terminators, as [trim] removes them. *)
Definition is_space (c : ascii) : bool :=
  let n := nat_of_ascii c in
  between 9 13 n || (n =? 32)%nat || (n =? 160)%nat.

Fixpoint trimStart (s : string) : string :=
  match s with
  | EmptyString => EmptyString
  | String c s' => if is_space c then trimStart s' else s
  end.

Fixpoint trimEnd (s : string) : string :=
  match s with
  | EmptyString => EmptyString
  | String c s' =>
      match trimEnd s' with
      | EmptyString => if is_space c then EmptyString else String c EmptyString
      | kept => String c kept
      end
  end.

Definition trim (s : string) : string := trimEnd (trimStart s).

(** ** Regular expressions

    The part of [RegExp] this core relies on: a pattern that is a sequence
    of single-character atoms, searched with the [g] flag and with or
    without [i]. *)

Inductive Atom :=
  | Lit (c : ascii)
  | AnyChar.

(** [SyntaxCharacter] of the pattern grammar. *)
Definition is_syntax_char (c : ascii) : bool :=
  bool_decide (c ∈ list_ascii_of_string "^$\.*+?()[]{}|").

Definition is_line_terminator (c : ascii) : bool :=
  let n := nat_of_ascii c in (n =? 10)%nat || (n =? 13)%nat.

(** The pattern as a list of atoms, when its only syntax characters are
    dots. *)
Fixpoint atoms_of (pattern : string) : option (list Atom) :=
  match pattern with
  | EmptyString => Some []
  | String c rest =>
      if bool_decide (c = "."%char) then cons AnyChar <$> atoms_of rest
      else if is_syntax_char c then None
      else cons (Lit c) <$> atoms_of rest
  end.

(** Where the parser stands with respect to quantifiers. *)
Inductive ScanState := AtStart | AfterAtom | AfterQuantifier | AfterLazy.

(** Does the pattern put a quantifier where there is nothing to repeat,
    before any construct this model does not read? [*] and [+] need an atom
    just before them; [?] needs an atom, or a quantifier that it makes
    lazy. *)
Fixpoint nothing_to_repeat (st : ScanState) (pattern : string) : bool :=
  match pattern with
  | EmptyString => false
  | String c rest =>
      if bool_decide (c = "*"%char) || bool_decide (c = "+"%char) then
        match st with
        | AfterAtom => nothing_to_repeat AfterQuantifier rest
        | _ => true
        end
      else if bool_decide (c = "?"%char) then
        match st with
        | AfterAtom => nothing_to_repeat AfterQuantifier rest
        | AfterQuantifier => nothing_to_repeat AfterLazy rest
        | _ => true
        end
      else if bool_decide (c = "."%char) then nothing_to_repeat AfterAtom rest
      else if is_syntax_char c then false
      else nothing_to_repeat AfterAtom rest
  end.

(** What [new RegExp(pattern, flags)] gives: a sequence of atoms; a
    [SyntaxError] ("Nothing to repeat"); or a regular expression with
    constructs this model does not interpret (it may still be rejected). *)
Inductive Compiled :=
  | Atoms (atoms : list Atom)
  | Rejected
  | Uninterpreted.

Definition compile (pattern : string) : Compiled :=
  match atoms_of pattern with
  | Some atoms => Atoms atoms
  | None => if nothing_to_repeat AtStart pattern then Rejected else Uninterpreted
  end.

Definition canonicalize (ignoreCase : bool) (c : ascii) : ascii :=
  if ignoreCase then upper_char c else c.

Definition atom_matches (ignoreCase : bool) (a : Atom) (c : ascii) : bool :=
  match a with
  | Lit p => bool_decide (canonicalize ignoreCase p = canonicalize ignoreCase c)
  | AnyChar => negb (is_line_terminator c)
  end.

(** Does the pattern match at the start of [s]? *)
Fixpoint match_here (ignoreCase : bool) (atoms : list Atom) (s : string) : bool :=
  match atoms, s with
  | [], _ => true
  | a :: atoms', String c s' =>
      atom_matches ignoreCase a c && match_here ignoreCase atoms' s'
  | _ :: _, EmptyString => false
  end.

(** [s.replace(re, replacement)] for a global [re] and a replacement free of
    [$]: matches are taken from left to right, each search resuming behind
    the previous match, one character further on after an empty match.
    [inside] counts the characters of the current match still to skip. *)
Fixpoint replace_from (ignoreCase : bool) (atoms : list Atom)
    (replacement : string) (inside : nat) (s : string) : string :=
  match s with
  | EmptyString =>
      match atoms with [] => replacement | _ => EmptyString end
  | String c s' =>
      match inside with
      | S k => replace_from ignoreCase atoms replacement k s'
      | 0 =>
          if match_here ignoreCase atoms s then
            replacement +:+
              match length atoms with
              | 0 => String c (replace_from ignoreCase atoms replacement 0 s')
              | S k => replace_from ignoreCase atoms replacement k s'
              end
          else String c (replace_from ignoreCase atoms replacement 0 s')
      end
  end.

Definition replace_all (ignoreCase : bool) (atoms : list Atom)
    (replacement s : string) : string :=
  replace_from ignoreCase atoms replacement 0 s.

(** ** The data model ([types.ts]) *)

Record Meaning := { partOfSpeech : string; definition : string }.

(** Of [Details] the core reads [examples] only. *)
Record Details := { examples : list string }.

(** Of [TermData] the core reads [term], [meanings] and [details]; the
    latter is optional and keyed by the index of a meaning. *)
Record TermData := {
  term : string;
  meanings : list Meaning;
  details : option (gmap nat Details)
}.

Record MatchItem := { item_id : string; item_term : string }.
Record MatchTarget := { target_id : string; target_definition : string }.

Inductive AssessmentQuestion :=
  | MCQ (id question : string) (options : list string) (correctAnswer : string)
  | FillBlank (id sentence correctAnswer : string)
  | Match (id instruction : string) (items : list MatchItem)
      (targets : list MatchTarget) (correctPairs : gmap string string)
  | Written (id prompt modelAnswer : string).

Definition question_id (q : AssessmentQuestion) : string :=
  match q with
  | MCQ id _ _ _ | FillBlank id _ _ | Match id _ _ _ _ | Written id _ _ => id
  end.

Record AssessmentData := { title : string; questions : list AssessmentQuestion }.

(** ** The assessment composer ([generateAssessmentFromTerms]) *)

Global Instance Result_ret : MRet Result := @Ok.
Global Instance Result_bind : MBind Result :=
  λ A B k r, match r with Ok a => k a | Throw e => Throw e end.

(** The double quote, for the template literals that contain one. *)
Definition dquote : string := String "034"%char EmptyString.

(** [t.meanings[0].definition]: a property read on [undefined] throws. *)
Definition first_definition (t : TermData) : Result string :=
  match meanings t !! 0 with
  | Some m => Ok (definition m)
  | None => Throw (TypeError "Cannot read properties of undefined")
  end.

(** [term.details?.[0]?.examples?.[0]] *)
Definition first_example (t : TermData) : option string :=
  d ← details t; d0 ← d !! 0; examples d0 !! 0.

(** A string in a condition: [undefined] and the empty string are falsy. *)
Definition truthy (v : option string) : option string :=
  match v with
  | Some s => if bool_decide (s = EmptyString) then None else Some s
  | None => None
  end.

(** [l.map((x, i) => f i x)] for a callback that may throw. *)
Fixpoint map_indexed {A B} (f : nat → A → Result B) (i : nat) (l : list A)
  : Result (list B) :=
  match l with
  | [] => Ok []
  | x :: l' => y ← f i x; ys ← map_indexed f (S i) l'; Ok (y :: ys)
  end.

(** [matchItems.forEach((item, i) => { correctPairs[item.id] =
    matchTargets[i].id; })] *)
Fixpoint pair_up (matchTargets : list MatchTarget) (i : nat)
    (matchItems : list MatchItem) (correctPairs : gmap string string)
  : Result (gmap string string) :=
  match matchItems with
  | [] => Ok correctPairs
  | item :: rest =>
      match matchTargets !! i with
      | Some target =>
          pair_up matchTargets (S i) rest
            (<[item_id item := target_id target]> correctPairs)
      | None => Throw (TypeError "Cannot read properties of undefined")
      end
  end.

(** [Math.floor(numTerms * 1.2)] in binary64. The literal [1.2] is the
    double [5404319552844595 / 2^52]; the exact product with an integer is
    rounded to 53 significant bits, ties to even, and then floored. All
    numerators are over [2^52]. *)
Definition double_1_2 : Z := 5404319552844595.

Definition round_binary64 (m : Z) : Z :=
  let e := Z.log2 m in
  if (e <? 53)%Z then m
  else
    let k := (e - 52)%Z in
    let q := (m / 2 ^ k)%Z in
    let r := (m mod 2 ^ k)%Z in
    let half := (2 ^ (k - 1))%Z in
    let q' := if (half <? r)%Z || ((r =? half)%Z && Z.odd q)
              then (q + 1)%Z else q in
    (q' * 2 ^ k)%Z.

Definition floor_times_1_2 (numTerms : nat) : Z :=
  (round_binary64 (Z.of_nat numTerms * double_1_2) / 2 ^ 52)%Z.

(** [Math.min(Math.floor(numTerms * 1.2) + 3, 25)] *)
Definition targetQuestionCount (numTerms : nat) : nat :=
  Z.to_nat (Z.min (floor_times_1_2 numTerms + 3) 25).

Section composer.

(** [subject.replace(new RegExp(pattern, 'ig'), '_____')] for the patterns
    left [Uninterpreted]: whatever the engine does with them, a
    [SyntaxError] included. *)
Variable regexp_engine : string → string → Result string.

(** [example.replace(/\*\*/g, '').replace(new RegExp(term.term, 'ig'),
    '_____')] *)
Definition blank_out (example termText : string) : Result string :=
  let stripped := replace_all false [Lit "*"; Lit "*"] EmptyString example in
  match compile termText with
  | Atoms atoms => Ok (replace_all true atoms "_____" stripped)
  | Rejected => Throw (SyntaxError "Nothing to repeat")
  | Uninterpreted => regexp_engine termText stripped
  end.

(** 1. The matching question. *)
Definition matchQuestion (shuffledTerms : list TermData)
    (questions : list AssessmentQuestion) : Result (list AssessmentQuestion) :=
  if bool_decide (4 ≤ length shuffledTerms) then
    let matchTerms := take 4 shuffledTerms in
    let matchItems :=
      imap (λ i t, {| item_id := "item-" +:+ pretty i; item_term := term t |})
        matchTerms in
    matchTargets ←
      map_indexed
        (λ i t, d ← first_definition t;
                Ok {| target_id := "target-" +:+ pretty i;
                      target_definition := d |})
        0 matchTerms;
    correctPairs ← pair_up matchTargets 0 matchItems ∅;
    Ok (questions ++
        [Match "match-q1" "Match each term to its correct definition."
           matchItems matchTargets correctPairs])
  else Ok questions.

(** 2.A. The multiple-choice question of one term. *)
Definition mcqQuestion (shuffledTerms : list TermData) (t : TermData)
    (index : nat) (questions : list AssessmentQuestion)
  : M (list AssessmentQuestion) :=
  if bool_decide (4 ≤ length shuffledTerms) then
    let correctAnswer := term t in
    others ← lift (shuffleArray
                     (filter (λ t', term t' ≠ correctAnswer) shuffledTerms));
    let distractors := term <$> take 3 others in
    if bool_decide (length distractors = 3) then
      d ← try_ (first_definition t);
      options ← lift (shuffleArray (correctAnswer :: distractors));
      mret (questions ++
            [MCQ ("mcq-" +:+ pretty index)
               ("Which word best fits the definition: " +:+ dquote +:+ d
                  +:+ dquote)
               options correctAnswer])
    else mret questions
  else mret questions.

(** 2.B. The fill-in-the-blank question of one term. *)
Definition fillQuestion (t : TermData) (index : nat)
    (questions : list AssessmentQuestion) : Result (list AssessmentQuestion) :=
  match truthy (first_example t) with
  | Some example =>
      sentence ← blank_out example (term t);
      Ok (questions ++
          [FillBlank ("fill-" +:+ pretty index) sentence (term t)])
  | None => Ok questions
  end.

(** 2.C. The written question of one term. *)
Definition writtenQuestion (t : TermData) (index : nat)
    (questions : list AssessmentQuestion) : list AssessmentQuestion :=
  questions ++
  [Written ("written-" +:+ pretty index)
     ("Write your own sentence using the word " +:+ dquote +:+ term t
        +:+ dquote +:+ ".")
     (default ("e.g., A sentence demonstrating the use of " +:+ term t +:+ ".")
        (truthy (first_example t)))].

(** The callback of [shuffledTerms.forEach((term, index) => ...)]. *)
Definition forEach_body (shuffledTerms : list TermData) (t : TermData)
    (index : nat) (questions : list AssessmentQuestion)
  : M (list AssessmentQuestion) :=
  q1 ← mcqQuestion shuffledTerms t index questions;
  q2 ← try_ (fillQuestion t index q1);
  mret (writtenQuestion t index q2).

Fixpoint forEach_from (shuffledTerms : list TermData) (index : nat)
    (rest : list TermData) (questions : list AssessmentQuestion)
  : M (list AssessmentQuestion) :=
  match rest with
  | [] => mret questions
  | t :: rest' =>
      questions' ← forEach_body shuffledTerms t index questions;
      forEach_from shuffledTerms (S index) rest' questions'
  end.

(** The questions pushed by the two steps, in the order of the pushes,
    before the final shuffle. *)
Definition producedQuestions (terms : list TermData)
  : M (list TermData * list AssessmentQuestion) :=
  shuffledTerms ← lift (shuffleArray terms);
  q0 ← try_ (matchQuestion shuffledTerms []);
  questions ← forEach_from shuffledTerms 0 shuffledTerms q0;
  mret (shuffledTerms, questions).

Definition generateAssessmentFromTerms (terms : list TermData)
  : M AssessmentData :=
  '(_, questions) ← producedQuestions terms;
  let numTerms := length terms in
  shuffled ← lift (shuffleArray questions);
  let finalQuestions := take (targetQuestionCount numTerms) shuffled in
  mret {| title := "Vocabulary Assessment (" +:+ pretty (length finalQuestions)
                     +:+ " Questions)";
          questions := finalQuestions |}.

End composer.

(** ** The assessment modal ([AssessmentModal]) *)

Inductive Status := loading | taking | submitted.

(** What [answers[q.id]] can hold: the option or text of a question, the
    item-to-target object of a matching question, or [null]; a question
    without an entry reads as [undefined]. *)
Inductive Answer :=
  | AnsNull
  | AnsString (s : string)
  | AnsPairs (pairs : gmap string string).

Global Instance Answer_eq_dec : EqDecision Answer.
Proof. solve_decision. Defined.

Record ModalState := {
  assessmentData : option AssessmentData;
  status : Status;
  answers : gmap string Answer;
  score : nat
}.

(** The effect run when the modal opens: the new state and whether
    [onClose] was called. *)
Definition openAssessment (regexp_engine : string → string → Result string)
    (terms : list TermData) (st : ModalState) (g : RNG) : ModalState * bool :=
  if bool_decide (0 < length terms) then
    let st1 := {| assessmentData := assessmentData st; status := loading;
                  answers := ∅; score := 0 |} in
    match generateAssessmentFromTerms regexp_engine terms g with
    | Ok (generatedAssessment, _) =>
        if bool_decide (length (questions generatedAssessment) = 0)
        then (st1, true)
        else ({| assessmentData := Some generatedAssessment; status := taking;
                 answers := ∅; score := 0 |}, false)
    | Throw _ => (st1, true)
    end
  else (st, false).

Definition handleAnswerChange (questionId : string) (answer : Answer)
    (st : ModalState) : ModalState :=
  {| assessmentData := assessmentData st; status := status st;
     answers := <[questionId:=answer]> (answers st); score := score st |}.

(** [Object.keys(correctPairs).every(itemId => userAnswer[itemId] ===
    correctPairs[itemId])] *)
Definition all_matched (correctPairs userAnswer : gmap string string) : bool :=
  forallb (λ itemId, bool_decide (userAnswer !! itemId = correctPairs !! itemId))
    (map_to_list correctPairs).*1.

(** The [switch (q.type)] of [handleSubmit]; [userAnswer.trim()] on an
    object throws. *)
Definition isQuestionCorrect (q : AssessmentQuestion) (userAnswer : Answer)
  : Result bool :=
  match q with
  | MCQ _ _ _ correctAnswer =>
      Ok (bool_decide (userAnswer = AnsString correctAnswer))
  | FillBlank _ _ correctAnswer =>
      match userAnswer with
      | AnsString s =>
          Ok (bool_decide (toLowerCase (trim s) = toLowerCase correctAnswer))
      | _ => Ok false
      end
  | Match _ _ _ _ correctPairs =>
      match userAnswer with
      | AnsPairs pairs => Ok (all_matched correctPairs pairs)
      | _ => Ok false
      end
  | Written _ _ _ =>
      match userAnswer with
      | AnsNull => Ok false
      | AnsString s =>
          Ok (bool_decide (s ≠ EmptyString) && bool_decide (trim s ≠ EmptyString))
      | AnsPairs _ => Throw (TypeError "userAnswer.trim is not a function")
      end
  end.

(** The callback of [assessmentData.questions.forEach(q => ...)]. *)
Definition grade_question (answers : gmap string Answer) (correctCount : nat)
    (q : AssessmentQuestion) : Result nat :=
  match answers !! question_id q with
  | None | Some AnsNull => Ok correctCount
  | Some userAnswer =>
      correct ← isQuestionCorrect q userAnswer;
      Ok (if correct : bool then S correctCount else correctCount)
  end.

Fixpoint grade_all (answers : gmap string Answer) (correctCount : nat)
    (qs : list AssessmentQuestion) : Result nat :=
  match qs with
  | [] => Ok correctCount
  | q :: rest =>
      correctCount' ← grade_question answers correctCount q;
      grade_all answers correctCount' rest
  end.

Definition handleSubmit (st : ModalState) : Result ModalState :=
  match assessmentData st with
  | None => Ok st
  | Some data =>
      correctCount ← grade_all (answers st) 0 (questions data);
      Ok {| assessmentData := assessmentData st; status := submitted;
            answers := answers st; score := correctCount |}
  end.

(** [MatchQuestionView]: the verdict shown on the question and the
    handler of its selects. *)
Definition view_isCorrect (isSubmitted : bool)
    (userAnswer : option (gmap string string))
    (correctPairs : gmap string string) : bool :=
  match isSubmitted, userAnswer with
  | true, Some pairs =>
      if (size pairs <? size correctPairs)%nat then false
      else all_matched correctPairs pairs
  | _, _ => false
  end.

Definition handleSelectChange (userAnswer : option (gmap string string))
    (itemId targetId : string) : gmap string string :=
  <[itemId:=targetId]> (default ∅ userAnswer).

(** The answers the selects of a matching question can build: one select
    per item, each change recorded under the id of its item. *)
Inductive selectable (items : list MatchItem)
  : option (gmap string string) → Prop :=
  | selectable_untouched : selectable items None
  | selectable_change userAnswer item targetId :
      selectable items userAnswer →
      item ∈ items →
      selectable items
        (Some (handleSelectChange userAnswer (item_id item) targetId)).

(** ** The quiz session ([QuizModal]) *)

Inductive GameState := playing | results.

Global Instance GameState_eq_dec : EqDecision GameState.
Proof. solve_decision. Defined.

Inductive PracticeType :=
  | meaningMatch | sentence | synonym | collocation | pos | sentencePractice
  | spellingBee | syntaxScramble | contextCheck | conversationChoice
  | collocationMatch | comprehensionCheck.

Record QuizState := {
  gameState : GameState;
  currentIndex : nat;
  wrongAnswers : list TermData;
  shuffledQuestions : list TermData
}.

(** A call of the [onQuizComplete] property. *)
Inductive Event :=
  | QuizComplete (quizType : PracticeType) (score total : Z).

(** The effect run when the modal opens. *)
Definition openQuiz (questions : list TermData) (g : RNG) : QuizState * RNG :=
  let '(shuffled, g') := shuffleArray questions g in
  ({| gameState := playing; currentIndex := 0; wrongAnswers := [];
      shuffledQuestions := shuffled |}, g').

(** [prev.find(t => t.term === currentTerm.term)] *)
Definition find_term (currentTerm : TermData) (prev : list TermData)
  : option TermData :=
  find (λ t, bool_decide (term t = term currentTerm)) prev.

(** [None] when there is no current question: no question view is
    rendered then ([if (!currentQuestion) return null]) and nothing can
    call the handler. *)
Definition handleNextQuestion (quizType : PracticeType) (isCorrect : bool)
    (st : QuizState) : option (QuizState * list Event) :=
  match shuffledQuestions st !! currentIndex st with
  | None => None
  | Some currentTerm =>
      let wrongAnswers' :=
        if isCorrect then wrongAnswers st
        else match find_term currentTerm (wrongAnswers st) with
             | None => wrongAnswers st ++ [currentTerm]
             | Some _ => wrongAnswers st
             end in
      if bool_decide (currentIndex st + 1 < length (shuffledQuestions st)) then
        Some ({| gameState := gameState st; currentIndex := currentIndex st + 1;
                 wrongAnswers := wrongAnswers';
                 shuffledQuestions := shuffledQuestions st |}, [])
      else
        let finalWrongAnswers :=
          if negb isCorrect
             && negb (bool_decide (is_Some (find_term currentTerm (wrongAnswers st))))
          then wrongAnswers st ++ [currentTerm] else wrongAnswers st in
        let score :=
          (Z.of_nat (length (shuffledQuestions st))
           - Z.of_nat (length finalWrongAnswers))%Z in
        Some ({| gameState := results; currentIndex := currentIndex st;
                 wrongAnswers := wrongAnswers';
                 shuffledQuestions := shuffledQuestions st |},
              [QuizComplete quizType score
                 (Z.of_nat (length (shuffledQuestions st)))])
  end.

(** One answer after the other, the events in order. *)
Fixpoint play (quizType : PracticeType) (verdicts : list bool) (st : QuizState)
  : option (QuizState * list Event) :=
  match verdicts with
  | [] => Some (st, [])
  | isCorrect :: rest =>
      '(st1, ev1) ← handleNextQuestion quizType isCorrect st;
      '(st2, ev2) ← play quizType rest st1;
      Some (st2, ev1 ++ ev2)
  end.

Definition handleRedeem (st : QuizState) (g : RNG) : QuizState * RNG :=
  let '(shuffled, g') := shuffleArray (wrongAnswers st) g in
  ({| gameState := playing; currentIndex := 0; wrongAnswers := [];
      shuffledQuestions := shuffled |}, g').

(** The "Redeem Wrong Terms" button is rendered on the results screen and
    only while [wrongAnswers.length > 0]. *)
Definition redeem_button (st : QuizState) : bool :=
  bool_decide (gameState st = results)
  && bool_decide (0 < length (wrongAnswers st)).

(** The redeem action as the user has it: a click where the button is. *)
Definition redeem (st : QuizState) (g : RNG) : QuizState * RNG :=
  if redeem_button st then handleRedeem st g else (st, g).

(** ** Notions used in the statements *)

(** The specification's terms have one or more meanings. *)
Definition has_meaning (t : TermData) : Prop := meanings t ≠ [].

(** The [RegExp] built from the text of [t] is accepted and applied,
    should [t] have an example to blank out. *)
Definition regexp_accepts (regexp_engine : string → string → Result string)
    (t : TermData) : Prop :=
  match truthy (first_example t) with
  | Some example => ∃ s, blank_out regexp_engine example (term t) = Ok s
  | None => True
  end.

Definition is_match (q : AssessmentQuestion) : bool :=
  match q with Match _ _ _ _ _ => true | _ => false end.

Definition written_for (t : TermData) (index : nat) : AssessmentQuestion :=
  Written ("written-" +:+ pretty index)
    ("Write your own sentence using the word " +:+ dquote +:+ term t
       +:+ dquote +:+ ".")
    (default ("e.g., A sentence demonstrating the use of " +:+ term t +:+ ".")
       (truthy (first_example t))).

Definition match_items (a b c d : TermData) : list MatchItem :=
  [ {| item_id := "item-0"; item_term := term a |};
    {| item_id := "item-1"; item_term := term b |};
    {| item_id := "item-2"; item_term := term c |};
    {| item_id := "item-3"; item_term := term d |} ].

Definition match_targets (da db dc dd : string) : list MatchTarget :=
  [ {| target_id := "target-0"; target_definition := da |};
    {| target_id := "target-1"; target_definition := db |};
    {| target_id := "target-2"; target_definition := dc |};
    {| target_id := "target-3"; target_definition := dd |} ].

Definition match_pairs : gmap string string :=
  list_to_map [("item-0", "target-0"); ("item-1", "target-1");
               ("item-2", "target-2"); ("item-3", "target-3")].

Definition match_of (a b c d : TermData) (da db dc dd : string)
  : AssessmentQuestion :=
  Match "match-q1" "Match each term to its correct definition."
    (match_items a b c d) (match_targets da db dc dd) match_pairs.

(** A correct-pairing map that pairs the items with the targets position
    by position, and is one-to-one from the item ids onto the target ids. *)
Definition pairs_positionally (items : list MatchItem)
    (targets : list MatchTarget) (correctPairs : gmap string string) : Prop :=
  length items = length targets ∧
  (∀ k item target,
     items !! k = Some item → targets !! k = Some target →
     correctPairs !! item_id item = Some (target_id target)) ∧
  (∀ itemId targetId,
     correctPairs !! itemId = Some targetId →
     ∃ k item target,
       items !! k = Some item ∧ targets !! k = Some target ∧
       item_id item = itemId ∧ target_id target = targetId) ∧
  (∀ itemId1 itemId2 targetId,
     correctPairs !! itemId1 = Some targetId →
     correctPairs !! itemId2 = Some targetId → itemId1 = itemId2).

(** ** Sample data for the worked examples *)

Definition half01 : Unit01 := {| numer := 1; denom := 2; below_one := eq_refl |}.

Definition third01 : Unit01 := {| numer := 1; denom := 3; below_one := eq_refl |}.

(** A generator that alternates between 1/2 and 1/3. *)
Definition sample_rng : RNG := λ n, if Nat.even n then half01 else third01.

(** An engine that rejects whatever reaches it. *)
Definition no_engine : string → string → Result string :=
  λ _ _, Throw (SyntaxError "Invalid regular expression").

Definition sample_term (text definition : string) (examples : list string)
  : TermData :=
  {| term := text;
     meanings := [{| partOfSpeech := "adjective"; definition := definition |}];
     details := Some {[ 0 := {| examples := examples |} ]} |}.

Definition ambiguous : TermData :=
  sample_term "ambiguous" "open to more than one interpretation"
    ["The contract was **ambiguous** in places."].

Definition brisk : TermData := sample_term "brisk" "quick and active" [].

Definition candid : TermData :=
  sample_term "candid" "truthful and straightforward"
    ["She gave a **candid** answer."].

Definition diligent : TermData :=
  sample_term "diligent" "showing care in one's work" [].

Definition four_terms : list TermData := [ambiguous; brisk; candid; diligent].

(** The value of a computation, without the generator state. *)
Definition value_of {A} (r : Result (A * RNG)) : Result A :=
  match r with Ok (a, _) => Ok a | Throw e => Throw e end.

(** A pool in which one text occurs twice. *)
Definition brisk_again : TermData :=
  sample_term "brisk" "cold but pleasantly fresh" [].

Definition repeated_pool : list TermData :=
  [ambiguous; brisk; brisk_again; candid].

(** A term explored for its second meaning only. *)
Definition second_meaning_only : TermData :=
  {| term := "brisk";
     meanings := [{| partOfSpeech := "adjective"; definition := "quick and active" |};
                  {| partOfSpeech := "adjective";
                     definition := "cold but pleasantly fresh" |}];
     details := Some {[ 1 := {| examples := ["A **brisk** wind blew."] |} ]} |}.

(** A term whose first example is the empty string. *)
Definition empty_example : TermData := sample_term "brisk" "quick and active" [""].

(** A term whose text has dots, and one whose text has quantifiers. *)
Definition a_m : TermData :=
  sample_term "a.m." "before noon" ["The alarms rang at 6 **a.m.** today."].

Definition c_plus_plus : TermData :=
  sample_term "C++" "a programming language" ["I write **C++** code."].

(** ** Notions used in the statements about the quiz and the blanks *)

(** The terms answered wrongly, in the order of the questions. *)
Definition wrong_terms (qs : list TermData) (verdicts : list bool)
  : list TermData :=
  (filter (λ p, p.2 = false) (zip qs verdicts)).*1.

(** How many different texts a list of terms has. *)
Definition distinct_terms (ts : list TermData) : nat :=
  size (list_to_set (term <$> ts) : gset string).

(** What [setWrongAnswers] leaves in the state after an answer. *)
Definition record_wrong (isCorrect : bool) (currentTerm : TermData)
    (prev : list TermData) : list TermData :=
  if isCorrect then prev
  else match find_term currentTerm prev with
       | None => prev ++ [currentTerm]
       | Some _ => prev
       end.

Definition finished_quiz : QuizState :=
  {| gameState := results; currentIndex := 3; wrongAnswers := [brisk; candid];
     shuffledQuestions := [candid; ambiguous; diligent; brisk] |}.

(** The specification's reading of "replace every occurrence": going from
    left to right, an occurrence is replaced by the marker and the search
    goes on behind it; a character at which no occurrence starts is
    kept. *)
Inductive replaced (occurrence : string → Prop) (marker : string)
  : string → string → Prop :=
  | replaced_end : replaced occurrence marker EmptyString EmptyString
  | replaced_hit m rest out :
      occurrence m →
      replaced occurrence marker rest out →
      replaced occurrence marker (m +:+ rest) (marker +:+ out)
  | replaced_keep c s out :
      (∀ m rest, occurrence m → String c s ≠ m +:+ rest) →
      replaced occurrence marker s out →
      replaced occurrence marker (String c s) (String c out).

(** An occurrence of a text, whatever the case of its letters. *)
Definition same_ignoring_case (text m : string) : Prop :=
  toLowerCase m = toLowerCase text.

(** [m] is matched by the literal atoms [cs], one character each. *)
Fixpoint agrees (ignoreCase : bool) (cs : list ascii) (m : string) : Prop :=
  match cs, m with
  | [], EmptyString => True
  | p :: cs', String c m' =>
      canonicalize ignoreCase p = canonicalize ignoreCase c
      ∧ agrees ignoreCase cs' m'
  | _, _ => False
  end.

(** * Further parts of the modals and their callers *)

(** ** The question views of the assessment ([MCQQuestionView],
    [FillBlankQuestionView], [WrittenQuestionView])

    Each view computes, from its [userAnswer] property, the verdict that
    colours the question once the assessment is submitted. The property of
    the three views below is a string, or [undefined]. *)

(** [userAnswer === q.correctAnswer] *)
Definition mcq_view_isCorrect (userAnswer : option string)
    (correctAnswer : string) : bool :=
  bool_decide (userAnswer = Some correctAnswer).

(** [userAnswer?.trim().toLowerCase() === q.correctAnswer.toLowerCase()] *)
Definition fill_view_isCorrect (userAnswer : option string)
    (correctAnswer : string) : bool :=
  match userAnswer with
  | Some s => bool_decide (toLowerCase (trim s) = toLowerCase correctAnswer)
  | None => false
  end.

(** [userAnswer && userAnswer.trim() !== ''] *)
Definition written_view_isCorrect (userAnswer : option string) : bool :=
  match userAnswer with
  | Some s => bool_decide (s ≠ EmptyString) && bool_decide (trim s ≠ EmptyString)
  | None => false
  end.

(** The answer stored for a question is of the kind its view hands to
    [onAnswer]: a string for the three views above, an object for the
    matching view. *)
Definition answer_fits (q : AssessmentQuestion) (a : Answer) : Prop :=
  match q, a with
  | Match _ _ _ _ _, AnsPairs _ => True
  | MCQ _ _ _ _, AnsString _ | FillBlank _ _ _, AnsString _
  | Written _ _ _, AnsString _ => True
  | _, _ => False
  end.

Definition as_string (a : option Answer) : option string :=
  match a with Some (AnsString s) => Some s | _ => None end.

Definition as_pairs (a : option Answer) : option (gmap string string) :=
  match a with Some (AnsPairs pairs) => Some pairs | _ => None end.

(** What [renderQuestion] shows for [q] after the submission, the views
    being given [answers[q.id]]. The views are typed for an answer of
    their kind or none: this is their verdict on such answers
    ([answer_fits]). *)
Definition shown_correct (answers : gmap string Answer)
    (q : AssessmentQuestion) : bool :=
  let userAnswer := answers !! question_id q in
  match q with
  | MCQ _ _ _ correctAnswer =>
      mcq_view_isCorrect (as_string userAnswer) correctAnswer
  | FillBlank _ _ correctAnswer =>
      fill_view_isCorrect (as_string userAnswer) correctAnswer
  | Match _ _ _ _ correctPairs =>
      view_isCorrect true (as_pairs userAnswer) correctPairs
  | Written _ _ _ => written_view_isCorrect (as_string userAnswer)
  end.

(** ** The results screen of the quiz ([renderQuizContent]) *)

(** [const score = shuffledQuestions.length - wrongAnswers.length] *)
Definition results_score (st : QuizState) : Z :=
  (Z.of_nat (length (shuffledQuestions st))
   - Z.of_nat (length (wrongAnswers st)))%Z.

(** ** The quiz history ([handleQuizComplete] of [App.tsx]) *)

Record QuizAttempt := {
  attempt_timestamp : Z;
  attempt_quizType : PracticeType;
  attempt_score : Z;
  attempt_total : Z
}.

(** [l.slice(-n)]: the last [n] elements, all of them when there are
    fewer. *)
Definition slice_last {A} (n : nat) (l : list A) : list A :=
  drop (length l - n) l.

(** The value written under ['quizHistory']; [historyJSON] is the parsed
    value read from there, [None] when the key is absent, and [now] is
    [Date.now()]. *)
Definition handleQuizComplete (historyJSON : option (list QuizAttempt))
    (now : Z) (quizType : PracticeType) (score total : Z)
  : list QuizAttempt :=
  let history := default [] historyJSON in
  let newAttempt := {| attempt_timestamp := now; attempt_quizType := quizType;
                       attempt_score := score; attempt_total := total |} in
  slice_last 50 (history ++ [newAttempt]).

(** The history after the events of a session, each stamped with the
    time at which it is handled. *)
Fixpoint log_events (stored : option (list QuizAttempt))
    (events : list (Z * Event)) : option (list QuizAttempt) :=
  match events with
  | [] => stored
  | (now, QuizComplete quizType score total) :: rest =>
      log_events (Some (handleQuizComplete stored now quizType score total)) rest
  end.

(** ** The library and the results ([updateTermData] of [App.tsx]) *)

Record AppState := {
  app_results : list TermData;
  app_library : gmap string TermData
}.

(** The property names of [Object.prototype]. The library is a plain
    object: reading one of these names on it gives a function (the
    prototype itself for [__proto__]), which is truthy, also when the
    library has no entry of that name. *)
Definition Object_prototype : list string :=
  ["constructor"; "__defineGetter__"; "__defineSetter__"; "hasOwnProperty";
   "__lookupGetter__"; "__lookupSetter__"; "isPrototypeOf";
   "propertyIsEnumerable"; "toString"; "valueOf"; "__proto__";
   "toLocaleString"].

(** [if (prevLibrary[termKey])]: an entry is an object, which is truthy. *)
Definition library_has (prevLibrary : gmap string TermData) (termKey : string)
  : bool :=
  bool_decide (is_Some (prevLibrary !! termKey))
  || bool_decide (termKey ∈ Object_prototype).

Definition updateTermData (updatedTerm : TermData) (st : AppState) : AppState :=
  let termKey := toLowerCase (term updatedTerm) in
  {| app_results :=
       (λ r, if bool_decide (toLowerCase (term r) = termKey)
             then updatedTerm else r) <$> app_results st;
     app_library :=
       if library_has (app_library st) termKey
       then <[termKey:=updatedTerm]> (app_library st)
       else app_library st |}.

(** [confirmDelete] of [App.tsx], [termKeys] being the keys handed to the
    confirmation dialog. *)
Definition confirmDelete (termKeys : list string) (st : AppState) : AppState :=
  {| app_results :=
       filter (λ r, toLowerCase (term r) ∉ termKeys) (app_results st);
     app_library :=
       foldl (λ newLibrary key, delete key newLibrary) (app_library st)
         termKeys |}.

(** The keys of the library are the lower-case texts of its entries. *)
Definition keyed_by_term (lib : gmap string TermData) : Prop :=
  ∀ key t, lib !! key = Some t → key = toLowerCase (term t).

(** ** The practice hub ([handleStart] of [PracticeHubModal]) *)

Record PracticeOption := {
  option_id : PracticeType;
  minRequired : nat;
  dataCheck : TermData → bool;
  warning : string
}.

(** What a click on an option does: a warning, or the modal is closed and
    [onStartQuiz] is called. *)
Inductive HubOutcome :=
  | Warn (message : string)
  | StartQuiz (type : PracticeType) (questions allTerms : list TermData).

Definition handleStart (selectedTerms allTerms : list TermData)
    (opt : PracticeOption) : HubOutcome :=
  if bool_decide (length selectedTerms < minRequired opt) then
    Warn (warning opt)
  else
    let validTerms := List.filter (dataCheck opt) selectedTerms in
    if bool_decide (length validTerms < minRequired opt) then
      Warn (warning opt
              +:+ " Make sure you've explored details for the selected terms.")
    else StartQuiz (option_id opt) validTerms allTerms.

(** [!!t.details?.[0]?.examples?.length] *)
Definition has_examples (t : TermData) : bool :=
  match details t ≫= (.!! 0) with
  | Some d => bool_decide (0 < length (examples d))
  | None => false
  end.

(** The table [PRACTICE_OPTIONS]. The record [Details] above does not
    carry the collocations: the check of the collocation quiz, [(t.details?.
    [0]?.collocations?.flatMap(c => c.items) || []).length >= 2], is a
    parameter. *)
Definition PRACTICE_OPTIONS (two_collocations : TermData → bool)
  : list PracticeOption :=
  [ {| option_id := meaningMatch; minRequired := 2; dataCheck := λ _, true;
       warning := "Need at least 2 terms." |};
    {| option_id := contextCheck; minRequired := 1;
       dataCheck := λ t, bool_decide (1 < length (meanings t));
       warning := "Need terms with multiple meanings." |};
    {| option_id := conversationChoice; minRequired := 1;
       dataCheck := λ _, true; warning := "Need at least 1 term." |};
    {| option_id := spellingBee; minRequired := 1; dataCheck := λ _, true;
       warning := "Need at least 1 term." |};
    {| option_id := syntaxScramble; minRequired := 1; dataCheck := has_examples;
       warning := "Need terms with example sentences." |};
    {| option_id := sentence; minRequired := 2; dataCheck := has_examples;
       warning := "Need at least 2 terms with example sentences." |};
    {| option_id := collocationMatch; minRequired := 1;
       dataCheck := two_collocations;
       warning := "Need terms with at least 2 collocations. Explore the term first." |};
    {| option_id := sentencePractice; minRequired := 1; dataCheck := λ _, true;
       warning := "Need at least 1 term." |} ].

(** ** The sentence scramble ([SyntaxScrambleView]) *)

(** [s.split(' ')] *)
Fixpoint split_spaces (s : string) : list string :=
  match s with
  | EmptyString => [EmptyString]
  | String c s' =>
      if bool_decide (c = " "%char) then EmptyString :: split_spaces s'
      else match split_spaces s' with
           | w :: ws => String c w :: ws
           | [] => [String c EmptyString]
           end
  end.

(** [words.join(' ')] *)
Fixpoint join_spaces (words : list string) : string :=
  match words with
  | [] => EmptyString
  | w :: rest =>
      match rest with
      | [] => w
      | _ :: _ => w +:+ " " +:+ join_spaces rest
      end
  end.

(** [question.details?.[0]?.examples?.[0]?.replace(/\*\*/g, '') || ''] *)
Definition originalSentence (question : TermData) : string :=
  default EmptyString
    (replace_all false [Lit "*"; Lit "*"] EmptyString <$> first_example question).

Definition originalWords (question : TermData) : list string :=
  split_spaces (originalSentence question).

(** [prev.filter((_, i) => i !== index)] *)
Definition remove_at {A} (index : nat) (prev : list A) : list A :=
  (filter (λ p, p.1 ≠ index) (imap pair prev)).*2.

Record ScrambleState := {
  sc_scrambled : list string;
  sc_userAnswer : list string;
  sc_answered : bool
}.

(** The effect run for a new question. *)
Definition openScramble (question : TermData) (g : RNG) : ScrambleState * RNG :=
  let '(shuffled, g') := shuffleArray (originalWords question) g in
  ({| sc_scrambled := shuffled; sc_userAnswer := []; sc_answered := false |}, g').

Definition handleWordClick (word : string) (index : nat) (st : ScrambleState)
  : ScrambleState :=
  {| sc_scrambled := remove_at index (sc_scrambled st);
     sc_userAnswer := sc_userAnswer st ++ [word];
     sc_answered := sc_answered st |}.

Definition handleAnswerClick (word : string) (index : nat) (st : ScrambleState)
  : ScrambleState :=
  {| sc_scrambled := sc_scrambled st ++ [word];
     sc_userAnswer := remove_at index (sc_userAnswer st);
     sc_answered := sc_answered st |}.

(** [userAnswer.join(' ') === originalSentence] *)
Definition scramble_isCorrect (question : TermData) (st : ScrambleState) : bool :=
  bool_decide (join_spaces (sc_userAnswer st) = originalSentence question).

(** The buttons of the view: the tile at a position of either row, and
    the button below, which checks the answer and then reports it. *)
Inductive ScrambleClick :=
  | ClickWord (i : nat)
  | ClickAnswer (i : nat)
  | ClickCheck.

(** A click: the new state and, when [onNext] is called, its argument. A
    position without a tile has no button. *)
Definition scramble_click (question : TermData) (c : ScrambleClick)
    (st : ScrambleState) : ScrambleState * option bool :=
  match c with
  | ClickWord i =>
      match sc_scrambled st !! i with
      | Some word =>
          (if sc_answered st then st else handleWordClick word i st, None)
      | None => (st, None)
      end
  | ClickAnswer i =>
      match sc_userAnswer st !! i with
      | Some word =>
          (if sc_answered st then st else handleAnswerClick word i st, None)
      | None => (st, None)
      end
  | ClickCheck =>
      if sc_answered st then (st, Some (scramble_isCorrect question st))
      else ({| sc_scrambled := sc_scrambled st;
               sc_userAnswer := sc_userAnswer st;
               sc_answered := true |}, None)
  end.

(** Clicks one after the other, without the reports. *)
Definition scramble_clicks (question : TermData) (cs : list ScrambleClick)
    (st : ScrambleState) : ScrambleState :=
  foldl (λ st c, (scramble_click question c st).1) st cs.

(** ** The collocation quiz ([CollocationMatchView]) *)

Record CollocationItem := {
  phrase : string;
  phrase_meaning : string;
  phrase_example : string
}.

Record Collocation := { heading : string; items : list CollocationItem }.

Record CollocationQuiz := {
  quizItems : list CollocationItem;
  shuffledMeanings : list string;
  correctMapping : gmap string string
}.

(** [new Map(entries)]: a later entry replaces an earlier one with its
    key. *)
Definition new_Map (entries : list (string * string)) : gmap string string :=
  foldl (λ m e, <[e.1:=e.2]> m) ∅ entries.

(** The memo of the view. The record [Details] above does not carry the
    collocations: [collocations] is the value of [question.details?.[0]?.
    collocations]. *)
Definition collocationQuiz (collocations : option (list Collocation))
    (g : RNG) : CollocationQuiz * RNG :=
  let allCollocations := default [] (flat_map items <$> collocations) in
  let sampleSize := Nat.min (length allCollocations) 4 in
  let '(shuffled, g1) := shuffleArray allCollocations g in
  let sampled := take sampleSize shuffled in
  let correctMapping :=
    new_Map ((λ item, (phrase item, phrase_meaning item)) <$> sampled) in
  let meanings := phrase_meaning <$> sampled in
  let '(shuffledMeanings, g2) := shuffleArray meanings g1 in
  ({| quizItems := sampled; shuffledMeanings := shuffledMeanings;
      correctMapping := correctMapping |}, g2).

Record CollocationState := {
  co_userAnswers : gmap string string;
  co_answered : bool
}.

(** [setUserAnswers(prev => new Map(prev).set(phrase, meaning))] *)
Definition handleSelect (phrase meaning : string) (st : CollocationState)
  : CollocationState :=
  {| co_userAnswers := <[phrase:=meaning]> (co_userAnswers st);
     co_answered := co_answered st |}.

(** The "Check Answers" button is disabled while [userAnswers.size !==
    quizItems.length]. *)
Definition check_enabled (quiz : CollocationQuiz) (st : CollocationState)
  : bool :=
  bool_decide (size (co_userAnswers st) = length (quizItems quiz)).

Definition allCorrect (quiz : CollocationQuiz) (st : CollocationState) : bool :=
  if negb (co_answered st) then false
  else if negb (bool_decide (size (co_userAnswers st) = length (quizItems quiz)))
  then false
  else forallb (λ item, bool_decide (co_userAnswers st !! phrase item
                                     = Some (phrase_meaning item)))
         (quizItems quiz).

(** The states the selects lead to before the check: one select per quiz
    item, recording its value under the phrase of the item. *)
Inductive selected (quiz : CollocationQuiz) : CollocationState → Prop :=
  | selected_none :
      selected quiz {| co_userAnswers := ∅; co_answered := false |}
  | selected_more st item meaning :
      selected quiz st →
      item ∈ quizItems quiz →
      meaning ∈ shuffledMeanings quiz →
      selected quiz (handleSelect (phrase item) meaning st).

(** ** The spelling quiz ([SpellingBeeView]) *)

Record SpellingState := { sp_userInput : string; sp_answered : bool }.

(** [prev.slice(0, -1)] *)
Fixpoint drop_last (s : string) : string :=
  match s with
  | EmptyString => EmptyString
  | String c s' =>
      match s' with
      | EmptyString => EmptyString
      | String _ _ => String c (drop_last s')
      end
  end.

Definition handleKeyPress (key : string) (st : SpellingState) : SpellingState :=
  if sp_answered st then st
  else if bool_decide (key = "backspace") then
    {| sp_userInput := drop_last (sp_userInput st); sp_answered := false |}
  else {| sp_userInput := sp_userInput st +:+ key; sp_answered := false |}.

(** [if (!userInput.trim()) return; setAnswered(true);] *)
Definition checkAnswer (st : SpellingState) : SpellingState :=
  if bool_decide (trim (sp_userInput st) = EmptyString) then st
  else {| sp_userInput := sp_userInput st; sp_answered := true |}.

(** [question.term.toLowerCase() === userInput.trim().toLowerCase()] *)
Definition spelling_isCorrect (question : TermData) (st : SpellingState) : bool :=
  bool_decide (toLowerCase (term question)
               = toLowerCase (trim (sp_userInput st))).

(** The letter keys of [OnScreenKeyboard]. *)
Definition keyboard_rows : list string := ["qwertyuiop"; "asdfghjkl"; "zxcvbnm"].

Definition keyboard_letters : list ascii :=
  flat_map list_ascii_of_string keyboard_rows.

(** A key of the on-screen keyboard: a letter, or the backspace. *)
Definition on_screen_key (key : string) : Prop :=
  key = "backspace" ∨ ∃ c, c ∈ keyboard_letters ∧ key = String c EmptyString.

(** Keys pressed one after the other, from the state of a new question. *)
Definition press_all (keys : list string) : SpellingState :=
  foldl (λ st key, handleKeyPress key st)
    {| sp_userInput := EmptyString; sp_answered := false |} keys.

(** ** The multiple-choice quiz ([MultipleChoiceView]) *)

Section multiple_choice.

(** [subject.replace(new RegExp(pattern, 'ig'), '______')] for the
    patterns left [Uninterpreted]. *)
Variable regexp_engine : string → string → Result string.

Definition could_not_load : string :=
  "Could not load sentence for this term. Please explore its details first.".

(** The [prompt] of the memo. *)
Definition choice_prompt (quizType : PracticeType) (question : TermData)
  : Result string :=
  match quizType with
  | meaningMatch => first_definition question
  | sentence =>
      match truthy (first_example question) with
      | Some example =>
          let stripped :=
            replace_all false [Lit "*"; Lit "*"] EmptyString example in
          match compile (term question) with
          | Atoms atoms => Ok (replace_all true atoms "______" stripped)
          | Rejected => Throw (SyntaxError "Nothing to repeat")
          | Uninterpreted => regexp_engine (term question) stripped
          end
      | None => Ok could_not_load
      end
  | _ => Ok EmptyString
  end.



End multiple_choice.

(** [!prompt || prompt.startsWith('Could not load')]: the view then shows
    the message and a "Skip" button that calls [onNext(true)]. *)
Definition shows_skip (prompt : string) : bool :=
  bool_decide (prompt = EmptyString) || String.prefix "Could not load" prompt.

(** ** Notions used in the further statements *)

(** A string of white space only. *)
Definition blank (s : string) : Prop :=
  Forall (λ c, is_space c = true) (list_ascii_of_string s).

(** Every stored answer is of the kind the view of its question hands to
    [onAnswer]. *)
Definition answers_fit (data : AssessmentData) (answers : gmap string Answer)
  : Prop :=
  ∀ q a, q ∈ questions data → answers !! question_id q = Some a →
         answer_fits q a.

(** The attempts that [handleQuizComplete] makes of the events of a
    session, each with the time at which it is handled. *)
Definition attempts_of (events : list (Z * Event)) : list QuizAttempt :=
  (λ e, match e with
        | (now, QuizComplete quizType score total) =>
            {| attempt_timestamp := now; attempt_quizType := quizType;
               attempt_score := score; attempt_total := total |}
        end) <$> events.

(** The ids the composer gives: that of the matching question, or a kind
    and the index of a term, below a bound for each kind. *)
Definition id_of_kind (m f w : nat) (id : string) : Prop :=
  id = "match-q1"
  ∨ (∃ i, i < m ∧ id = "mcq-" +:+ pretty i)
  ∨ (∃ i, i < f ∧ id = "fill-" +:+ pretty i)
  ∨ (∃ i, i < w ∧ id = "written-" +:+ pretty i).

Definition ids_below (m f w : nat) (qs : list AssessmentQuestion) : Prop :=
  NoDup (question_id <$> qs) ∧
  Forall (λ q, id_of_kind m f w (question_id q)) qs.

(** An answer of the kind the view of [q] produces that the grader
    accepts, where there is one: the expected option or text, the
    correct pairs, some text for a written question. *)
Definition expected_answer (q : AssessmentQuestion) : Answer :=
  match q with
  | MCQ _ _ _ correctAnswer | FillBlank _ _ correctAnswer =>
      AnsString correctAnswer
  | Match _ _ _ _ correctPairs => AnsPairs correctPairs
  | Written _ _ _ => AnsString "A sentence."
  end.

(** The expected answer of a fill-in-the-blank question has no white
    space around it. *)
Definition fill_trimmed (q : AssessmentQuestion) : Prop :=
  match q with
  | FillBlank _ _ correctAnswer => trim correctAnswer = correctAnswer
  | _ => True
  end.

(** Unfolding the two monads in a goal and its hypotheses. *)
Ltac unfold_monad :=
  unfold mbind, M_bind, Result_bind, bind, mret, M_ret, Result_ret, ret,
    lift, try_ in *.

(** * Facts about lists *)

Lemma filter_none {A} (P : A → Prop) `{!∀ x, Decision (P x)} (l : list A) :
  Forall (λ x, ¬ P x) l → filter P l = [].
Proof.
  induction 1 as [|x l Hx _ IH]; [done|]. by rewrite filter_cons_False.
Qed.

Lemma filter_all {A} (P : A → Prop) `{!∀ x, Decision (P x)} (l : list A) :
  Forall P l → filter P l = l.
Proof.
  induction 1 as [|x l Hx _ IH]; [done|]. by rewrite filter_cons_True, IH.
Qed.

(** * Properties of the shuffler *)

Lemma floor_scaled_lt r k : 0 < k → floor_scaled r k < k.
Proof.
  intros Hk. unfold floor_scaled.
  pose proof (below_one r) as Hr. apply Nat.ltb_lt in Hr.
  apply Nat.Div0.div_lt_upper_bound. nia.
Qed.

Section shuffle_facts.
Context {T : Type}.
Implicit Types a : list T.

Lemma swap_length i j a : length (swap i j a) = length a.
Proof.
  unfold swap. destruct (a !! j), (a !! i); auto.
  by rewrite !length_insert.
Qed.

Lemma swap_Permutation i j a : swap i j a ≡ₚ a.
Proof.
  unfold swap.
  destruct (a !! j) as [aj|] eqn:Hj, (a !! i) as [ai|] eqn:Hi; auto.
  by apply Permutation_insert_swap.
Qed.

(** Inside the array the swap really exchanges the two cells. *)
Lemma swap_in_range i j a :
  i < length a → j < length a →
  ∃ ai aj, a !! i = Some ai ∧ a !! j = Some aj ∧
           swap i j a = <[j:=ai]> (<[i:=aj]> a).
Proof.
  intros [ai Hi]%lookup_lt_is_Some_2 [aj Hj]%lookup_lt_is_Some_2.
  exists ai, aj. unfold swap. by rewrite Hi, Hj.
Qed.

(** One round of the loop: the cell at the decremented index is exchanged
    with a cell at or below it, both inside the array. *)
Lemma shuffle_loop_step decremented a g :
  S decremented ≤ length a →
  ∃ randomIndex ai aj,
    randomIndex ≤ decremented ∧
    a !! decremented = Some ai ∧ a !! randomIndex = Some aj ∧
    length (<[randomIndex:=ai]> (<[decremented:=aj]> a)) = length a ∧
    shuffle_loop (S decremented) a g
    = shuffle_loop decremented (<[randomIndex:=ai]> (<[decremented:=aj]> a))
        (λ n, g (S n)).
Proof.
  intros Hlen.
  pose proof (floor_scaled_lt (g 0) (S decremented) ltac:(lia)) as Hlt.
  destruct (swap_in_range decremented (floor_scaled (g 0) (S decremented)) a)
    as (ai & aj & Hi & Hj & Hswap); [lia|lia|].
  exists (floor_scaled (g 0) (S decremented)), ai, aj.
  split_and!; [lia|done|done|by rewrite !length_insert|].
  cbn [shuffle_loop Math_random]. by rewrite Hswap.
Qed.

Lemma shuffle_loop_Permutation n a g : (shuffle_loop n a g).1 ≡ₚ a.
Proof.
  revert a g. induction n as [|n IH]; intros a g; simpl; [done|].
  rewrite IH. apply swap_Permutation.
Qed.

Lemma shuffleArray_Permutation a g : (shuffleArray a g).1 ≡ₚ a.
Proof. apply shuffle_loop_Permutation. Qed.

Lemma shuffleArray_length a g : length (shuffleArray a g).1 = length a.
Proof. by rewrite shuffleArray_Permutation. Qed.

Lemma shuffleArray_result a g out g' :
  shuffleArray a g = (out, g') → out ≡ₚ a ∧ length out = length a.
Proof.
  intros Hs. pose proof (shuffleArray_Permutation a g) as Hp.
  rewrite Hs in Hp. split; [done|by rewrite Hp].
Qed.

Lemma shuffle_loop_ref_spec n (newArray : nat) (h : gmap nat (list T)) a g :
  h !! newArray = Some a →
  shuffle_loop_ref n newArray h g
  = (<[newArray:=(shuffle_loop n a g).1]> h, (shuffle_loop n a g).2).
Proof.
  revert h a g.
  induction n as [|n IH]; intros h a g Hh;
    cbn [shuffle_loop_ref shuffle_loop Math_random fst snd].
  - by rewrite insert_id.
  - erewrite IH by (rewrite lookup_alter_eq, Hh; done).
    f_equal. apply map_eq; intros k.
    destruct (decide (newArray = k)) as [->|Hne].
    + by rewrite !lookup_insert_eq.
    + rewrite !lookup_insert_ne by done. by rewrite lookup_alter_ne.
Qed.
End shuffle_facts.

(** C8. Shuffling the array behind a reference returns a new array that
    is a permutation of the argument, of the same length; every array that
    was in the store before the call, the argument among them, is
    unchanged; and the shuffle of the empty array is empty. *)
Theorem shuffleArray_permutes_without_mutation {T} (array : nat)
    (h : gmap nat (list T)) (g : RNG) (elems : list T) :
  h !! array = Some elems →
  ∃ newArray h' g' out,
    shuffleArray_ref array h g = Some (newArray, h', g') ∧
    h' !! newArray = Some out ∧
    (out, g') = shuffleArray elems g ∧
    out ≡ₚ elems ∧
    length out = length elems ∧
    (elems = [] → out = []) ∧
    (newArray ∉ dom h) ∧
    h' !! array = Some elems ∧
    (∀ r, r ∈ dom h → h' !! r = h !! r).
Proof.
  intros Harr. unfold shuffleArray_ref, spread. rewrite Harr.
  set (newArray := fresh (dom h)).
  assert (Hfresh : newArray ∉ dom h) by apply is_fresh.
  assert (Hnone : h !! newArray = None) by by apply not_elem_of_dom.
  rewrite (shuffle_loop_ref_spec _ _ _ elems) by apply lookup_insert_eq.
  fold (shuffleArray elems g). destruct (shuffleArray elems g) as [out g'] eqn:Hs.
  assert (Hperm : out ≡ₚ elems).
  { pose proof (shuffleArray_Permutation elems g) as Hp. by rewrite Hs in Hp. }
  exists newArray, (<[newArray:=out]> (<[newArray:=elems]> h)), g', out.
  assert (Hother : ∀ r, r ∈ dom h →
            <[newArray:=out]> (<[newArray:=elems]> h) !! r = h !! r).
  { intros r Hr. rewrite !lookup_insert_ne; [done| |]; intros ->; done. }
  repeat split; simpl; auto.
  - apply lookup_insert_eq.
  - by rewrite Hperm.
  - intros ->. by apply Permutation_nil_r in Hperm.
  - rewrite Hother, Harr; [done|]. apply elem_of_dom; eauto.
Qed.

Lemma shuffleArray_permutes_without_mutation_witness :
  ∃ newArray h' g',
    shuffleArray_ref 7 {[ 7 := [1; 2; 3] ]} sample_rng
    = Some (newArray, h', g') ∧
    h' !! 7 = Some [1; 2; 3] ∧
    newArray ≠ 7.
Proof.
  destruct (shuffleArray_permutes_without_mutation 7 {[ 7 := [1; 2; 3] ]}
              sample_rng [1; 2; 3])
    as (newArray & h' & g' & out & Hs & _ & _ & _ & _ & _ & Hfresh & Hkept & _).
  - reflexivity.
  - exists newArray, h', g'. split_and!; [done|done|].
    intros ->. apply Hfresh. apply elem_of_dom. by exists [1; 2; 3].
Defined.

(** * Properties of the composer *)

Lemma first_definition_ok t :
  has_meaning t → ∃ d, first_definition t = Ok d.
Proof.
  unfold has_meaning, first_definition.
  destruct (meanings t) as [|m ms]; [done|]. intros _. by exists (definition m).
Qed.

Section composer_facts.
Variable regexp_engine : string → string → Result string.
Implicit Types (t : TermData) (qs : list AssessmentQuestion) (g : RNG).

(** The multiple-choice step, case by case. *)
Lemma mcqQuestion_few shuffledTerms t index qs g :
  length shuffledTerms < 4 →
  mcqQuestion shuffledTerms t index qs g = Ok (qs, g).
Proof.
  intros Hlen. unfold mcqQuestion. rewrite bool_decide_eq_false_2 by lia. done.
Qed.

Lemma mcqQuestion_skipped shuffledTerms t index qs g :
  4 ≤ length shuffledTerms →
  length (filter (λ t', term t' ≠ term t) shuffledTerms) < 3 →
  mcqQuestion shuffledTerms t index qs g
  = Ok (qs, (shuffleArray (filter (λ t', term t' ≠ term t) shuffledTerms) g).2).
Proof.
  intros Hlen Hfew. unfold mcqQuestion. rewrite bool_decide_eq_true_2 by done.
  unfold_monad.
  destruct (shuffleArray _ g) as [others g1] eqn:Hs. simpl.
  apply shuffleArray_result in Hs as [_ Hl].
  rewrite bool_decide_eq_false_2; [done|].
  rewrite length_fmap, length_take. lia.
Qed.

Lemma mcqQuestion_produced shuffledTerms t index qs g :
  4 ≤ length shuffledTerms →
  3 ≤ length (filter (λ t', term t' ≠ term t) shuffledTerms) →
  has_meaning t →
  ∃ others g1 d options g2,
    shuffleArray (filter (λ t', term t' ≠ term t) shuffledTerms) g = (others, g1) ∧
    first_definition t = Ok d ∧
    shuffleArray (term t :: (term <$> take 3 others)) g1 = (options, g2) ∧
    mcqQuestion shuffledTerms t index qs g
    = Ok (qs ++ [MCQ ("mcq-" +:+ pretty index)
                   ("Which word best fits the definition: " +:+ dquote +:+ d
                      +:+ dquote)
                   options (term t)], g2).
Proof.
  intros Hlen Hmany [d Hd]%first_definition_ok.
  unfold mcqQuestion. rewrite bool_decide_eq_true_2 by done. unfold_monad.
  destruct (shuffleArray _ g) as [others g1] eqn:Hs. simpl.
  apply shuffleArray_result in Hs as [_ Hl].
  rewrite bool_decide_eq_true_2
    by (rewrite length_fmap, length_take; lia).
  rewrite Hd.
  destruct (shuffleArray (term t :: _) g1) as [options g2] eqn:Ho.
  by exists others, g1, d, options, g2.
Qed.

(** The shape of what one term adds: at most a multiple-choice and a
    fill-in-the-blank question, then its written question. *)
Lemma mcqQuestion_shape shuffledTerms t index qs g qs' g' :
  mcqQuestion shuffledTerms t index qs g = Ok (qs', g') →
  ∃ new, qs' = qs ++ new ∧ length new ≤ 1 ∧ Forall (λ q, is_match q = false) new.
Proof.
  unfold mcqQuestion. unfold_monad.
  destruct (bool_decide (4 ≤ length shuffledTerms)).
  2:{ intros [= <- <-]. exists []. rewrite app_nil_r. auto with lia. }
  destruct (shuffleArray _ g) as [others g1].
  destruct (bool_decide _).
  2:{ intros [= <- <-]. exists []. rewrite app_nil_r. auto with lia. }
  destruct (first_definition t) as [d|]; [|done].
  destruct (shuffleArray (term t :: _) g1) as [options g2].
  intros [= <- <-]. eexists [_]. repeat split; auto.
Qed.

Lemma fillQuestion_shape t index qs qs' :
  fillQuestion regexp_engine t index qs = Ok qs' →
  ∃ new, qs' = qs ++ new ∧ length new ≤ 1 ∧ Forall (λ q, is_match q = false) new.
Proof.
  unfold fillQuestion. unfold_monad.
  destruct (truthy (first_example t)) as [example|].
  2:{ intros [= <-]. exists []. rewrite app_nil_r. auto with lia. }
  destruct (blank_out _ _ _) as [sentence|]; [|done].
  intros [= <-]. eexists [_]. repeat split; auto.
Qed.

Lemma forEach_body_shape shuffledTerms t index qs g qs' g' :
  forEach_body regexp_engine shuffledTerms t index qs g = Ok (qs', g') →
  ∃ new, qs' = qs ++ new ++ [written_for t index] ∧
         Forall (λ q, is_match q = false) new.
Proof.
  unfold forEach_body. unfold_monad.
  destruct (mcqQuestion _ _ _ _ _) as [[q1 g1]|] eqn:Hmcq; [|done].
  apply mcqQuestion_shape in Hmcq as (new1 & -> & _ & Hnew1).
  destruct (fillQuestion _ _ _ _) as [q2|] eqn:Hfill; [|done].
  apply fillQuestion_shape in Hfill as (new2 & -> & _ & Hnew2).
  intros [= <- <-]. exists (new1 ++ new2). unfold writtenQuestion, written_for.
  split; [by rewrite <- !app_assoc|]. by apply Forall_app.
Qed.

Lemma forEach_body_ok shuffledTerms t index qs g :
  length shuffledTerms < 4 ∨ has_meaning t →
  regexp_accepts regexp_engine t →
  ∃ qs' g', forEach_body regexp_engine shuffledTerms t index qs g = Ok (qs', g').
Proof.
  intros Hmeaning Hre. unfold forEach_body. unfold_monad.
  assert (∃ q1 g1, mcqQuestion shuffledTerms t index qs g = Ok (q1, g1))
    as (q1 & g1 & ->).
  { destruct (decide (length shuffledTerms < 4)) as [Hlt|Hge].
    { rewrite mcqQuestion_few by done. eauto. }
    destruct Hmeaning as [?|Hmeaning]; [done|].
    destruct (decide (length (filter (λ t', term t' ≠ term t) shuffledTerms) < 3)).
    { rewrite mcqQuestion_skipped by (done || lia). eauto. }
    destruct (mcqQuestion_produced shuffledTerms t index qs g)
      as (? & ? & ? & ? & ? & _ & _ & _ & ->); (done || lia || eauto). }
  unfold fillQuestion, regexp_accepts in *. unfold_monad.
  destruct (truthy (first_example t)) as [example|]; [|eauto].
  destruct Hre as [sentence ->]. eauto.
Qed.

Lemma forEach_from_shape shuffledTerms index rest qs g qs' g' :
  forEach_from regexp_engine shuffledTerms index rest qs g = Ok (qs', g') →
  filter is_match qs' = filter is_match qs ∧
  length qs + length rest ≤ length qs' ∧
  (∀ q, q ∈ qs → q ∈ qs') ∧
  (∀ k t, rest !! k = Some t → written_for t (index + k) ∈ qs').
Proof.
  revert index qs g. induction rest as [|t rest IH]; intros index qs g; simpl.
  { unfold_monad. intros [= <- <-]. repeat split; auto; [lia|]. by intros []. }
  unfold_monad.
  destruct (forEach_body _ _ _ _ _ _) as [[q1 g1]|] eqn:Hbody; [|done].
  apply forEach_body_shape in Hbody as (new & -> & Hnew).
  intros (Hm & Hlen & Hin & Hw)%IH. repeat split.
  - rewrite Hm, !filter_app.
    rewrite (filter_none _ new).
    + simpl. by rewrite app_nil_r.
    + eapply Forall_impl; [exact Hnew|]. intros q Hq Hq'. by rewrite Hq in Hq'.
  - rewrite !length_app in Hlen. simpl in *. lia.
  - intros q Hq. apply Hin. rewrite elem_of_app. by left.
  - intros [|k] t' Hk; simpl in Hk.
    + injection Hk as <-. apply Hin. rewrite Nat.add_0_r, !elem_of_app.
      right. right. apply list_elem_of_singleton. done.
    + replace (index + S k) with (S index + k) by lia. by apply Hw.
Qed.

Lemma forEach_from_ok shuffledTerms index rest qs g :
  length shuffledTerms < 4 ∨ Forall has_meaning rest →
  Forall (regexp_accepts regexp_engine) rest →
  ∃ qs' g', forEach_from regexp_engine shuffledTerms index rest qs g = Ok (qs', g').
Proof.
  revert index qs g. induction rest as [|t rest IH]; intros index qs g Hm Hre.
  { simpl. unfold_monad. eauto. }
  simpl. unfold_monad.
  apply Forall_cons in Hre as [Hre1 Hre].
  destruct (forEach_body_ok shuffledTerms t index qs g) as (q1 & g1 & ->); auto.
  { destruct Hm as [?|Hm]; [by left|]. right. by apply Forall_cons in Hm as []. }
  apply IH; [|done].
  destruct Hm as [?|Hm]; [by left|]. right. by apply Forall_cons in Hm as [].
Qed.

(** *** The matching question *)

Lemma matchQuestion_four a b c d rest da db dc dd qs :
  first_definition a = Ok da → first_definition b = Ok db →
  first_definition c = Ok dc → first_definition d = Ok dd →
  matchQuestion (a :: b :: c :: d :: rest) qs
  = Ok (qs ++ [match_of a b c d da db dc dd]).
Proof.
  intros Ha Hb Hc Hd. unfold matchQuestion.
  rewrite bool_decide_eq_true_2 by (simpl; lia).
  cbn [take map_indexed]. unfold_monad. rewrite Ha, Hb, Hc, Hd.
  vm_compute. reflexivity.
Qed.

Lemma matchQuestion_few shuffledTerms qs :
  length shuffledTerms < 4 → matchQuestion shuffledTerms qs = Ok qs.
Proof.
  intros Hlen. unfold matchQuestion. by rewrite bool_decide_eq_false_2 by lia.
Qed.

Lemma match_pairs_lookup itemId targetId :
  match_pairs !! itemId = Some targetId ↔
  (itemId, targetId) ∈ [("item-0", "target-0"); ("item-1", "target-1");
                        ("item-2", "target-2"); ("item-3", "target-3")].
Proof.
  unfold match_pairs. rewrite <- elem_of_list_to_map; [done|].
  compute_done.
Qed.

Lemma match_pairs_positionally a b c d da db dc dd :
  pairs_positionally (match_items a b c d) (match_targets da db dc dd)
    match_pairs.
Proof.
  repeat split.
  - intros k item target Hi Ht. apply match_pairs_lookup.
    destruct k as [|[|[|[|k]]]]; simpl in *; simplify_eq; simpl;
      rewrite !elem_of_cons; auto 6.
  - intros itemId targetId Hl%match_pairs_lookup.
    rewrite !elem_of_cons, elem_of_nil in Hl.
    destruct Hl as [[= -> ->]|[[= -> ->]|[[= -> ->]|[[= -> ->]|[]]]]].
    + by exists 0, {| item_id := "item-0"; item_term := term a |},
        {| target_id := "target-0"; target_definition := da |}.
    + by exists 1, {| item_id := "item-1"; item_term := term b |},
        {| target_id := "target-1"; target_definition := db |}.
    + by exists 2, {| item_id := "item-2"; item_term := term c |},
        {| target_id := "target-2"; target_definition := dc |}.
    + by exists 3, {| item_id := "item-3"; item_term := term d |},
        {| target_id := "target-3"; target_definition := dd |}.
  - intros i1 i2 tid H1%match_pairs_lookup H2%match_pairs_lookup.
    rewrite !elem_of_cons, elem_of_nil in H1, H2.
    destruct H1 as [[= -> ->]|[[= -> ->]|[[= -> ->]|[[= -> ->]|[]]]]];
      destruct H2 as [H2|[H2|[H2|[H2|[]]]]]; by simplify_eq.
Qed.

(** *** The whole run *)

Lemma producedQuestions_shape terms g shuffledTerms questions g' :
  producedQuestions regexp_engine terms g = Ok ((shuffledTerms, questions), g') →
  shuffledTerms = (shuffleArray terms g).1 ∧
  shuffledTerms ≡ₚ terms ∧
  (∃ q0, matchQuestion shuffledTerms [] = Ok q0 ∧
         filter is_match questions = filter is_match q0) ∧
  length terms ≤ length questions ∧
  (∀ k t, shuffledTerms !! k = Some t → written_for t k ∈ questions).
Proof.
  unfold producedQuestions. unfold_monad.
  destruct (shuffleArray terms g) as [sh g1] eqn:Hs.
  apply shuffleArray_result in Hs as [Hperm Hlen].
  destruct (matchQuestion sh []) as [q0|] eqn:Hq0; [|done].
  destruct (forEach_from _ _ _ _ _ _) as [[qs g2]|] eqn:Hfor; [|done].
  intros [= <- <- <-].
  apply forEach_from_shape in Hfor as (Hm & Hl & _ & Hw).
  repeat split; auto; [by exists q0|lia].
Qed.

Lemma matchQuestion_ok shuffledTerms qs :
  length shuffledTerms < 4 ∨ Forall has_meaning shuffledTerms →
  ∃ qs', matchQuestion shuffledTerms qs = Ok qs'.
Proof.
  intros Hm. destruct (decide (length shuffledTerms < 4)) as [Hlt|Hge].
  { rewrite matchQuestion_few by done. eauto. }
  destruct Hm as [?|Hm]; [done|].
  destruct shuffledTerms as [|a [|b [|c [|d rest]]]]; simpl in Hge; try lia.
  repeat (apply Forall_cons in Hm as [[? ?]%first_definition_ok Hm]).
  erewrite matchQuestion_four by done. eauto.
Qed.

Lemma producedQuestions_ok terms g :
  length terms < 4 ∨ Forall has_meaning terms →
  Forall (regexp_accepts regexp_engine) terms →
  ∃ shuffledTerms questions g',
    producedQuestions regexp_engine terms g = Ok ((shuffledTerms, questions), g').
Proof.
  intros Hm Hre. unfold producedQuestions. unfold_monad.
  destruct (shuffleArray terms g) as [sh g1] eqn:Hs.
  apply shuffleArray_result in Hs as [Hperm Hlen].
  rewrite <- Hlen, <- Hperm in Hm. rewrite <- Hperm in Hre.
  destruct (matchQuestion_ok sh []) as [q0 ->]; [done|].
  destruct (forEach_from_ok sh 0 sh q0 g1) as (qs & g2 & ->); eauto.
Qed.

Lemma generate_unfold terms g :
  generateAssessmentFromTerms regexp_engine terms g
  = match producedQuestions regexp_engine terms g with
    | Ok ((_, produced), g1) =>
        let finalQuestions :=
          take (targetQuestionCount (length terms))
            (shuffleArray produced g1).1 in
        Ok ({| title := "Vocabulary Assessment ("
                          +:+ pretty (length finalQuestions) +:+ " Questions)";
               questions := finalQuestions |},
            (shuffleArray produced g1).2)
    | Throw e => Throw e
    end.
Proof.
  unfold generateAssessmentFromTerms. unfold_monad.
  destruct (producedQuestions _ _ _) as [[[sh produced] g1]|]; [|done].
  by destruct (shuffleArray produced g1).
Qed.

Lemma generate_ok terms g :
  Forall has_meaning terms →
  Forall (regexp_accepts regexp_engine) terms →
  ∃ a g', generateAssessmentFromTerms regexp_engine terms g = Ok (a, g').
Proof.
  intros Hm Hre. rewrite generate_unfold.
  destruct (producedQuestions_ok terms g)
    as (sh & produced & g1 & ->); [by right|done|].
  eexists _, _. reflexivity.
Qed.

End composer_facts.

(** *** The target count *)

Lemma floor_times_1_2_large n : 27 ≤ n → (32 ≤ floor_times_1_2 n)%Z.
Proof.
  intros Hn. unfold floor_times_1_2, round_binary64.
  set (m := (Z.of_nat n * double_1_2)%Z).
  assert (2 ^ 57 ≤ m)%Z as Hm by (unfold m, double_1_2; lia).
  assert (57 ≤ Z.log2 m)%Z as He.
  { change 57%Z with (Z.log2 (2 ^ 57)). by apply Z.log2_le_mono. }
  destruct (Z.log2_spec m) as [Hlo _]; [lia|].
  rewrite (proj2 (Z.ltb_ge _ _)) by lia.
  set (k := (Z.log2 m - 52)%Z) in *.
  assert (2 ^ Z.log2 m = 2 ^ 52 * 2 ^ k)%Z as Hsplit.
  { rewrite <- Z.pow_add_r by lia. f_equal. lia. }
  assert (0 < 2 ^ k)%Z as Hk by (apply Z.pow_pos_nonneg; lia).
  assert (2 ^ 5 ≤ 2 ^ k)%Z as Hk5 by (apply Z.pow_le_mono_r; lia).
  assert (2 ^ 52 ≤ m / 2 ^ k)%Z as Hq.
  { apply Z.div_le_lower_bound; lia. }
  set (q := (m / 2 ^ k)%Z) in *.
  change (2 ^ 5)%Z with 32%Z in Hk5.
  match goal with |- context [if ?b then _ else _] => destruct b end;
    (apply Z.div_le_lower_bound; [lia|nia]).
Qed.

Lemma floor_times_1_2_small n :
  n < 27 → floor_times_1_2 n = (12 * Z.of_nat n / 10)%Z.
Proof.
  intros Hn.
  do 27 (destruct n as [|n]; [vm_compute; reflexivity|]). lia.
Qed.

(** The double arithmetic of the source gives the specification's
    [min(floor(n * 1.2) + 3, 25)] at every length. *)
Lemma targetQuestionCount_exact n :
  targetQuestionCount n = Nat.min (12 * n / 10 + 3) 25.
Proof.
  unfold targetQuestionCount.
  destruct (decide (n < 27)) as [Hlt|Hge].
  - rewrite floor_times_1_2_small by done.
    replace (12 * Z.of_nat n / 10)%Z with (Z.of_nat (12 * n / 10)).
    2:{ rewrite Nat2Z.inj_div, Nat2Z.inj_mul. done. }
    lia.
  - pose proof (floor_times_1_2_large n ltac:(lia)) as Hbig.
    assert (32 ≤ 12 * n / 10) by (apply Nat.div_le_lower_bound; lia).
    lia.
Qed.

Lemma targetQuestionCount_lower n : 1 ≤ n → 4 ≤ targetQuestionCount n.
Proof.
  intros Hn. rewrite targetQuestionCount_exact.
  assert (1 ≤ 12 * n / 10) by (apply Nat.div_le_lower_bound; lia). lia.
Qed.

(** * The claims about the composer *)

(** C1. The composer shuffles the questions it produced and keeps the
    first [min(floor(n * 1.2) + 3, 25)] of them, [n] being the number of
    input terms: the returned set has that many questions when at least
    that many were produced and all of them otherwise, and its title
    carries the count. The assessment is returned whenever every term has
    a meaning and the regular expression of its text is accepted. For 10
    terms the target is 15. *)
Theorem assessment_size regexp_engine (terms : list TermData) (g : RNG) :
  (∀ a g', generateAssessmentFromTerms regexp_engine terms g = Ok (a, g') →
     ∃ shuffledTerms produced g1,
       producedQuestions regexp_engine terms g
       = Ok ((shuffledTerms, produced), g1) ∧
       (shuffleArray produced g1).1 ≡ₚ produced ∧
       questions a
       = take (Nat.min (12 * length terms / 10 + 3) 25)
           (shuffleArray produced g1).1 ∧
       questions a ⊆+ produced ∧
       length (questions a)
       = Nat.min (length produced) (Nat.min (12 * length terms / 10 + 3) 25) ∧
       title a = "Vocabulary Assessment (" +:+ pretty (length (questions a))
                   +:+ " Questions)") ∧
  (Forall has_meaning terms →
   Forall (regexp_accepts regexp_engine) terms →
   ∃ a g', generateAssessmentFromTerms regexp_engine terms g = Ok (a, g')) ∧
  targetQuestionCount 10 = 15 ∧
  Nat.min (12 * 10 / 10 + 3) 25 = 15.
Proof.
  rewrite generate_unfold. repeat split; try done.
  - intros a g'.
    destruct (producedQuestions _ _ _) as [[[sh produced] g1]|] eqn:Hp; [|done].
    intros [= <- <-]. exists sh, produced, g1. cbn [questions title].
    rewrite targetQuestionCount_exact.
    pose proof (shuffleArray_Permutation produced g1) as Hperm.
    repeat split; auto.
    + rewrite <- Hperm at 2. apply sublist_submseteq, sublist_take.
    + rewrite length_take, Hperm. lia.
  - rewrite <- generate_unfold. apply generate_ok.
Qed.

Lemma assessment_size_witness :
  ∃ a g', generateAssessmentFromTerms no_engine four_terms sample_rng
          = Ok (a, g') ∧
          length (questions a) = 7.
Proof.
  destruct (assessment_size no_engine four_terms sample_rng)
    as (Hsize & Hreturns & _).
  destruct Hreturns as (a & g' & Ha).
  - repeat constructor; done.
  - repeat constructor; vm_compute; eauto.
  - exists a, g'. split; [done|].
    destruct (Hsize a g' Ha) as (sh & produced & g1 & Hp & _ & _ & _ & -> & _).
    assert (length produced = 11) as ->; [|reflexivity].
    assert (value_of (producedQuestions no_engine four_terms sample_rng)
            = Ok (sh, produced)) as Hv by (by rewrite Hp).
    vm_compute in Hv. by injection Hv as <- <-.
Defined.

(** C4. With at least 4 input terms, each with a meaning, the composer
    produces exactly one matching question, built from the first 4 terms
    of the shuffled list: 4 items and 4 targets in the order of those
    terms, each item carrying the text and each target the first
    definition of the term at its position, and a correct-pairing map that
    is one-to-one from the item ids onto the target ids and pairs every
    item with the target of the same position. No other step adds a
    matching question. *)
Theorem match_question_from_first_four regexp_engine (terms : list TermData)
    (g : RNG) :
  4 ≤ length terms →
  Forall has_meaning terms →
  ∃ shuffledTerms a b c d rest da db dc dd,
    shuffledTerms = (shuffleArray terms g).1 ∧
    shuffledTerms ≡ₚ terms ∧
    shuffledTerms = a :: b :: c :: d :: rest ∧
    first_definition a = Ok da ∧ first_definition b = Ok db ∧
    first_definition c = Ok dc ∧ first_definition d = Ok dd ∧
    matchQuestion shuffledTerms []
    = Ok [Match "match-q1" "Match each term to its correct definition."
            (match_items a b c d) (match_targets da db dc dd) match_pairs] ∧
    length (match_items a b c d) = 4 ∧
    length (match_targets da db dc dd) = 4 ∧
    pairs_positionally (match_items a b c d) (match_targets da db dc dd)
      match_pairs ∧
    (∀ others produced g',
       producedQuestions regexp_engine terms g = Ok ((others, produced), g') →
       others = shuffledTerms ∧
       filter is_match produced
       = [Match "match-q1" "Match each term to its correct definition."
            (match_items a b c d) (match_targets da db dc dd) match_pairs]) ∧
    (Forall (regexp_accepts regexp_engine) terms →
     ∃ produced g',
       producedQuestions regexp_engine terms g
       = Ok ((shuffledTerms, produced), g')).
Proof.
  intros Hlen Hm.
  destruct (shuffleArray terms g) as [sh g1] eqn:Hs.
  pose proof Hs as [Hperm Hl]%shuffleArray_result.
  assert (Forall has_meaning sh) as Hmsh by by rewrite Hperm.
  destruct sh as [|a [|b [|c [|d rest]]]]; simpl in Hl; try lia.
  pose proof Hmsh as Hm4.
  apply Forall_cons in Hm4 as [[da Ha]%first_definition_ok Hm4].
  apply Forall_cons in Hm4 as [[db Hb]%first_definition_ok Hm4].
  apply Forall_cons in Hm4 as [[dc Hc]%first_definition_ok Hm4].
  apply Forall_cons in Hm4 as [[dd Hd]%first_definition_ok _].
  exists (a :: b :: c :: d :: rest), a, b, c, d, rest, da, db, dc, dd.
  pose proof (matchQuestion_four a b c d rest da db dc dd [] Ha Hb Hc Hd) as Hq.
  simpl app in Hq. unfold match_of in Hq.
  split_and!; try done.
  - apply match_pairs_positionally.
  - intros others produced g' Hp.
    apply producedQuestions_shape in Hp as (-> & _ & (q0 & Hq0 & Hf) & _).
    rewrite Hs in *. simpl in *. split; [done|].
    rewrite Hq in Hq0. injection Hq0 as <-. by rewrite Hf.
  - intros Hre.
    destruct (producedQuestions_ok regexp_engine terms g)
      as (sh & produced & g' & Hp); [by right|done|].
    pose proof Hp as (-> & _)%producedQuestions_shape.
    rewrite Hs in Hp. eauto.
Qed.

Lemma match_question_from_first_four_witness :
  ∃ a b c d rest da db dc dd,
    (shuffleArray four_terms sample_rng).1 = a :: b :: c :: d :: rest ∧
    matchQuestion (shuffleArray four_terms sample_rng).1 []
    = Ok [Match "match-q1" "Match each term to its correct definition."
            (match_items a b c d) (match_targets da db dc dd) match_pairs].
Proof.
  destruct (match_question_from_first_four no_engine four_terms sample_rng)
    as (sh & a & b & c & d & rest & da & db & dc & dd & -> & _ & Hsh & _ & _
        & _ & _ & Hq & _).
  - simpl. lia.
  - repeat constructor; done.
  - by exists a, b, c, d, rest, da, db, dc, dd.
Defined.

(** C2, as the code has it. In a pool of at least 4 terms the
    multiple-choice step of a term X with a meaning is skipped, without
    failing, when fewer than 3 entries of the pool have a text other than
    X's; otherwise it produces a question with 4 options: X's text, exactly
    once, and the texts of 3 different entries of the remaining pool,
    shuffled. The 3 distractors are pairwise distinct texts when the texts
    of the pool are, and then the question is produced for every X of the
    pool. *)
Theorem mcq_options (pool : list TermData) (X : TermData) (index : nat)
    (qs : list AssessmentQuestion) (g : RNG) :
  4 ≤ length pool →
  has_meaning X →
  (length (filter (λ t, term t ≠ term X) pool) < 3 →
   ∃ g', mcqQuestion pool X index qs g = Ok (qs, g')) ∧
  (3 ≤ length (filter (λ t, term t ≠ term X) pool) →
   ∃ question options distractors g',
     mcqQuestion pool X index qs g
     = Ok (qs ++ [MCQ ("mcq-" +:+ pretty index) question options (term X)], g') ∧
     length options = 4 ∧
     options ≡ₚ term X :: (term <$> distractors) ∧
     length (filter (λ o, o = term X) options) = 1 ∧
     length distractors = 3 ∧
     distractors ⊆+ filter (λ t, term t ≠ term X) pool ∧
     (∀ t, t ∈ distractors → t ∈ pool ∧ term t ≠ term X) ∧
     (NoDup (term <$> pool) → NoDup (term <$> distractors) ∧ NoDup options)) ∧
  (NoDup (term <$> pool) → X ∈ pool →
   3 ≤ length (filter (λ t, term t ≠ term X) pool)).
Proof.
  intros Hlen HX. split_and!.
  - intros Hfew. rewrite mcqQuestion_skipped by done. eauto.
  - intros Hmany.
    destruct (mcqQuestion_produced pool X index qs g)
      as (others & g1 & d & options & g2 & Hs & Hd & Ho & ->); try done.
    apply shuffleArray_result in Hs as [Hperm Hl].
    apply shuffleArray_result in Ho as [Hoperm Hol].
    assert (take 3 others ⊆+ filter (λ t, term t ≠ term X) pool) as Hsub.
    { rewrite <- Hperm. apply sublist_submseteq, sublist_take. }
    assert (∀ t, t ∈ take 3 others → t ∈ pool ∧ term t ≠ term X) as Hin.
    { intros t Ht. eapply elem_of_submseteq in Ht; [|exact Hsub].
      by apply list_elem_of_filter in Ht as [? ?]. }
    assert (filter (λ o, o = term X) (term <$> take 3 others) = []) as Hnone.
    { apply filter_none, Forall_forall.
      intros o (t & -> & Ht)%list_elem_of_fmap. by apply Hin in Ht as [_ ?]. }
    eexists _, options, (take 3 others), g2.
    split_and!; try done.
    + rewrite Hol. simpl. rewrite length_fmap, length_take. lia.
    + rewrite Hoperm, filter_cons_True, Hnone by done. done.
    + rewrite length_take. lia.
    + intros Hnd.
      assert (NoDup (term <$> take 3 others)) as Hnd3.
      { eapply sublist_NoDup; [|apply fmap_sublist, (sublist_take _ 3)].
        rewrite Hperm.
        eapply sublist_NoDup; [exact Hnd|].
        apply fmap_sublist, sublist_filter. }
      split; [done|]. rewrite Hoperm. apply NoDup_cons. split; [|done].
      intros (t & Heq & Ht)%list_elem_of_fmap. by apply Hin in Ht as [_ ?].
  - intros Hnd HXin.
    apply list_elem_of_split in HXin as (l1 & l2 & ->).
    rewrite fmap_app, fmap_cons in Hnd.
    apply NoDup_app in Hnd as (_ & Hl1 & [Hl2 _]%NoDup_cons).
    rewrite filter_app, filter_cons_False by (intros ?; done).
    rewrite !length_app in *. simpl in Hlen.
    rewrite (filter_all _ l1), (filter_all _ l2).
    + lia.
    + apply Forall_forall. intros t Ht Heq. apply Hl2.
      rewrite <- Heq. by apply list_elem_of_fmap_2.
    + apply Forall_forall. intros t Ht Heq. apply (Hl1 (term t)).
      * by apply list_elem_of_fmap_2.
      * rewrite Heq. apply list_elem_of_here.
Qed.

Lemma mcq_options_witness :
  ∃ question options g',
    mcqQuestion four_terms ambiguous 0 [] sample_rng
    = Ok ([MCQ "mcq-0" question options "ambiguous"], g') ∧
    length options = 4 ∧
    length (filter (λ o, o = "ambiguous") options) = 1.
Proof.
  destruct (mcq_options four_terms ambiguous 0 [] sample_rng) as (_ & Hmany & _).
  - simpl. lia.
  - done.
  - destruct Hmany as (question & options & ds & g' & Hq & Hlen & _ & Hone & _).
    + vm_compute. lia.
    + exists question, options, g'. split_and!; assumption.
Defined.

(** C2 as stated fails on a pool with a repeated text: the question for
    "ambiguous" is produced and offers "brisk" twice. *)
Lemma mcq_repeated_distractor :
  4 ≤ length repeated_pool ∧
  ∃ question,
    value_of (mcqQuestion repeated_pool ambiguous 0 [] sample_rng)
    = Ok [MCQ "mcq-0" question ["brisk"; "ambiguous"; "brisk"; "candid"]
            "ambiguous"] ∧
    filter (λ o, o ≠ "ambiguous") ["brisk"; "ambiguous"; "brisk"; "candid"]
    = ["brisk"; "brisk"; "candid"] ∧
    ¬ NoDup ["brisk"; "brisk"; "candid"].
Proof.
  split; [simpl; lia|]. eexists. split_and!.
  - vm_compute. reflexivity.
  - reflexivity.
  - intros [Hnotin _]%NoDup_cons. apply Hnotin. left.
Qed.

(** * A term text that is not a regular expression *)

Lemma shuffleArray_singleton {T} (x : T) g :
  (shuffleArray [x] g).1 = [x].
Proof.
  pose proof (shuffleArray_Permutation [x] g) as Hperm.
  by apply Permutation_singleton_r in Hperm.
Qed.

(** C10. A single term with a meaning, "C++", with an example: the
    constructor of the regular expression rejects its text and the
    composer throws, where the claim has it return a set with at least one
    question. The caller then closes the modal through its [catch]. *)
Theorem assessment_throws_on_quantifiers regexp_engine (g : RNG)
    (st : ModalState) :
  [c_plus_plus] ≠ [] ∧
  Forall has_meaning [c_plus_plus] ∧
  generateAssessmentFromTerms regexp_engine [c_plus_plus] g
  = Throw (SyntaxError "Nothing to repeat") ∧
  (openAssessment regexp_engine [c_plus_plus] st g).2 = true.
Proof.
  assert (generateAssessmentFromTerms regexp_engine [c_plus_plus] g
          = Throw (SyntaxError "Nothing to repeat")) as Hthrow.
  { rewrite generate_unfold. unfold producedQuestions. unfold_monad.
    pose proof (shuffleArray_singleton c_plus_plus g) as Hs.
    destruct (shuffleArray [c_plus_plus] g) as [sh g1]. simpl in Hs. subst sh.
    reflexivity. }
  split_and!; try done.
  - repeat constructor; done.
  - unfold openAssessment. by rewrite Hthrow.
Qed.

(** Where the regular expressions are accepted the composer returns, and
    whatever it returns for a list that is not empty has a question: each
    term contributes its written question and the target count is 4 or
    more. The "no questions" branch of the caller is never taken. *)
Lemma assessment_nonempty regexp_engine (terms : list TermData) (g : RNG)
    (st : ModalState) :
  terms ≠ [] →
  (∀ a g', generateAssessmentFromTerms regexp_engine terms g = Ok (a, g') →
     1 ≤ length (questions a) ∧
     openAssessment regexp_engine terms st g
     = ({| assessmentData := Some a; status := taking; answers := ∅;
           score := 0 |}, false)) ∧
  (∀ shuffledTerms produced g1,
     producedQuestions regexp_engine terms g
     = Ok ((shuffledTerms, produced), g1) →
     ∀ k t, shuffledTerms !! k = Some t → written_for t k ∈ produced) ∧
  4 ≤ targetQuestionCount (length terms) ∧
  (Forall has_meaning terms →
   Forall (regexp_accepts regexp_engine) terms →
   ∃ a g', generateAssessmentFromTerms regexp_engine terms g = Ok (a, g')).
Proof.
  intros Hne.
  assert (1 ≤ length terms) as Hlen by (destruct terms; simpl; [done|lia]).
  pose proof (targetQuestionCount_lower _ Hlen) as Htarget.
  split_and!; [| |done|].
  - intros a g' Ha.
    assert (1 ≤ length (questions a)) as Hq.
    { rewrite generate_unfold in Ha.
      destruct (producedQuestions _ _ _) as [[[sh produced] g1]|] eqn:Hp;
        [|done].
      apply producedQuestions_shape in Hp as (_ & _ & _ & Hl & _).
      injection Ha as <- <-. cbn [questions].
      rewrite length_take, shuffleArray_length. lia. }
    split; [done|]. unfold openAssessment.
    rewrite bool_decide_eq_true_2, Ha by lia.
    by rewrite bool_decide_eq_false_2 by lia.
  - intros sh produced g1 Hp.
    by apply producedQuestions_shape in Hp as (_ & _ & _ & _ & Hw).
  - apply generate_ok.
Qed.

(** * The grader *)

Lemma all_matched_spec (correctPairs userAnswer : gmap string string) :
  all_matched correctPairs userAnswer = true ↔
  ∀ itemId targetId,
    correctPairs !! itemId = Some targetId →
    userAnswer !! itemId = Some targetId.
Proof.
  unfold all_matched. rewrite forallb_forall. split.
  - intros Hall itemId targetId Hc.
    specialize (Hall itemId). rewrite <- list_elem_of_In in Hall.
    rewrite Hc in Hall. eapply bool_decide_eq_true_1, Hall.
    apply list_elem_of_fmap. exists (itemId, targetId).
    split; [done|]. by apply elem_of_map_to_list.
  - intros Hall itemId
      ([k v] & -> & Hin%elem_of_map_to_list)%list_elem_of_In%list_elem_of_fmap.
    apply bool_decide_eq_true_2. simpl. rewrite Hin. by apply Hall.
Qed.

(** Every answer the selects can build has item ids for keys. *)
Lemma selectable_keys items userAnswer pairs itemId :
  selectable items userAnswer →
  userAnswer = Some pairs →
  is_Some (pairs !! itemId) →
  itemId ∈ item_id <$> items.
Proof.
  intros Hsel. revert pairs.
  induction Hsel as [|userAnswer item targetId _ IH Hitem];
    intros pairs; [done|].
  intros [= <-]. unfold handleSelectChange.
  destruct (decide (item_id item = itemId)) as [<-|Hne].
  { intros _. by apply list_elem_of_fmap_2. }
  rewrite lookup_insert_ne by done.
  destruct userAnswer as [previous|]; simpl.
  - by apply IH.
  - rewrite lookup_empty. by intros [? ?].
Qed.

(** C5. A matching question has an entry of the correct-pairing map for
    each of its items, as the one the composer builds has. For every such
    question and every submission, which is to say every item-to-target
    object the selects of the question can build, the grader marks the
    question correct if and only if the submission has the size of the
    correct-pairing map and agrees with it key by key. The grader does not
    throw, and the verdict shown on the question is the grader's. *)
Theorem match_grading id instruction (items : list MatchItem)
    (targets : list MatchTarget) (correctPairs submitted : gmap string string) :
  list_to_set (item_id <$> items) ⊆ dom correctPairs →
  selectable items (Some submitted) →
  (isQuestionCorrect (Match id instruction items targets correctPairs)
     (AnsPairs submitted) = Ok true
   ↔ size submitted = size correctPairs ∧
     ∀ itemId, submitted !! itemId = correctPairs !! itemId) ∧
  (view_isCorrect true (Some submitted) correctPairs = true
   ↔ size submitted = size correctPairs ∧
     ∀ itemId, submitted !! itemId = correctPairs !! itemId) ∧
  isQuestionCorrect (Match id instruction items targets correctPairs)
    (AnsPairs submitted)
  = Ok (view_isCorrect true (Some submitted) correctPairs) ∧
  (∀ a b c d, list_to_set (item_id <$> match_items a b c d) ⊆ dom match_pairs).
Proof.
  intros Hitems Hsel.
  assert (dom submitted ⊆ dom correctPairs) as Hdom.
  { intros itemId Hin%elem_of_dom. apply Hitems, elem_of_list_to_set.
    by eapply selectable_keys. }
  assert (all_matched correctPairs submitted = true → correctPairs ⊆ submitted)
    as Hsub.
  { intros Hall. apply map_subseteq_spec. by apply all_matched_spec. }
  assert (view_isCorrect true (Some submitted) correctPairs
          = all_matched correctPairs submitted) as Hview.
  { unfold view_isCorrect.
    destruct (size submitted <? size correctPairs) eqn:Hsize; [|done].
    apply Nat.ltb_lt in Hsize. symmetry. apply not_true_is_false.
    intros Hall%Hsub%map_subseteq_size. lia. }
  assert (all_matched correctPairs submitted = true
          ↔ size submitted = size correctPairs ∧
            ∀ itemId, submitted !! itemId = correctPairs !! itemId) as Hiff.
  { split.
    - intros Hall. assert (correctPairs = submitted) as ->; [|done].
      apply map_eq. intros k. pose proof (Hsub Hall) as Hsubset.
      rewrite map_subseteq_spec in Hsubset.
      destruct (correctPairs !! k) as [v|] eqn:Hk.
      + symmetry. by apply Hsubset.
      + symmetry. apply not_elem_of_dom. intros Hin%Hdom.
        by apply not_elem_of_dom in Hk.
    - intros [_ Heq]. apply all_matched_spec.
      intros itemId targetId. by rewrite Heq. }
  split_and!.
  - cbn [isQuestionCorrect]. rewrite <- Hiff.
    split; [by intros [= ->]|by intros ->].
  - by rewrite Hview.
  - cbn [isQuestionCorrect]. by rewrite Hview.
  - intros a b c d itemId. rewrite elem_of_list_to_set, elem_of_dom.
    cbn [match_items fmap list_fmap item_id].
    rewrite !elem_of_cons, elem_of_nil.
    intros [->|[->|[->|[->|[]]]]]; eexists; by apply match_pairs_lookup;
      rewrite !elem_of_cons; auto 6.
Qed.

Lemma match_grading_witness :
  isQuestionCorrect
    (Match "match-q1" "Match each term to its correct definition."
       (match_items ambiguous brisk candid diligent)
       (match_targets "a" "b" "c" "d") match_pairs)
    (AnsPairs
       (handleSelectChange
          (Some (handleSelectChange
                   (Some (handleSelectChange
                            (Some (handleSelectChange None "item-3" "target-3"))
                            "item-1" "target-1"))
                   "item-0" "target-0"))
          "item-2" "target-2"))
  = Ok true.
Proof.
  apply (match_grading "match-q1" "Match each term to its correct definition."
           (match_items ambiguous brisk candid diligent)
           (match_targets "a" "b" "c" "d") match_pairs).
  - intros itemId. rewrite elem_of_list_to_set, elem_of_dom.
    cbn [match_items fmap list_fmap item_id].
    rewrite !elem_of_cons, elem_of_nil.
    intros [->|[->|[->|[->|[]]]]]; eexists; vm_compute; reflexivity.
  - apply (selectable_change _ _ {| item_id := "item-2"; item_term := term candid |});
      [|do 2 apply list_elem_of_further; apply list_elem_of_here].
    apply (selectable_change _ _ {| item_id := "item-0"; item_term := term ambiguous |});
      [|apply list_elem_of_here].
    apply (selectable_change _ _ {| item_id := "item-1"; item_term := term brisk |});
      [|apply list_elem_of_further, list_elem_of_here].
    apply (selectable_change _ _ {| item_id := "item-3"; item_term := term diligent |});
      [|do 3 apply list_elem_of_further; apply list_elem_of_here].
    apply selectable_untouched.
Defined.

(** Where a submission has a key that is no item id, which no select of
    the question can produce, neither the grader nor the view compares the
    sizes for equality: the four right pairs with a fifth key are marked
    correct. *)
Lemma match_graded_correct_with_extra_key :
  isQuestionCorrect
    (Match "match-q1" "Match each term to its correct definition."
       (match_items ambiguous brisk candid diligent)
       (match_targets "a" "b" "c" "d") match_pairs)
    (AnsPairs (<["item-9":="target-0"]> match_pairs))
  = Ok true ∧
  view_isCorrect true (Some (<["item-9":="target-0"]> match_pairs)) match_pairs
  = true ∧
  size (<["item-9":="target-0"]> match_pairs) = 5 ∧
  size match_pairs = 4.
Proof. split_and!; vm_compute; reflexivity. Qed.

(** C9. A question without a submitted answer, of whichever of the four
    types, leaves the count of correct answers as it is and does not
    throw; the batch is graded as if the question were not in the set. A
    set without any answer is graded 0 and shown as submitted. *)
Theorem unanswered_is_incorrect (answers : gmap string Answer)
    (q : AssessmentQuestion) (correctCount : nat) :
  answers !! question_id q = None →
  grade_question answers correctCount q = Ok correctCount ∧
  (∀ before after count,
     grade_all answers count (before ++ q :: after)
     = grade_all answers count (before ++ after)) ∧
  (∀ id question options correctAnswer,
     q = MCQ id question options correctAnswer →
     grade_question answers correctCount q = Ok correctCount) ∧
  (∀ id sentence correctAnswer,
     q = FillBlank id sentence correctAnswer →
     grade_question answers correctCount q = Ok correctCount) ∧
  (∀ id instruction items targets correctPairs,
     q = Match id instruction items targets correctPairs →
     grade_question answers correctCount q = Ok correctCount) ∧
  (∀ id prompt modelAnswer,
     q = Written id prompt modelAnswer →
     grade_question answers correctCount q = Ok correctCount).
Proof.
  intros Hnone.
  assert (∀ count, grade_question answers count q = Ok count) as Hq.
  { intros count. unfold grade_question. by rewrite Hnone. }
  split_and!; auto.
  intros before after. induction before as [|q' before IH]; intros count; simpl.
  - by rewrite Hq.
  - destruct (grade_question answers count q') as [count'|]; simpl; auto.
Qed.

Lemma grade_all_unanswered (qs : list AssessmentQuestion) (count : nat) :
  grade_all ∅ count qs = Ok count.
Proof.
  induction qs as [|q qs IH]; simpl; [done|].
  unfold grade_question. by rewrite lookup_empty.
Qed.

Lemma handleSubmit_unanswered (data : AssessmentData) :
  handleSubmit {| assessmentData := Some data; status := taking;
                  answers := ∅; score := 0 |}
  = Ok {| assessmentData := Some data; status := submitted;
          answers := ∅; score := 0 |}.
Proof. unfold handleSubmit. simpl. by rewrite grade_all_unanswered. Qed.

Lemma unanswered_is_incorrect_witness :
  grade_question ∅ 0 (Written "written-0" "Write your own sentence." "A model.")
  = Ok 0.
Proof.
  apply (unanswered_is_incorrect ∅
           (Written "written-0" "Write your own sentence." "A model.") 0).
  reflexivity.
Defined.

(** * The quiz session *)

Lemma find_term_None currentTerm prev :
  find_term currentTerm prev = None ↔ term currentTerm ∉ term <$> prev.
Proof.
  unfold find_term. induction prev as [|t prev IH]; simpl.
  - split; [intros _|done]. apply not_elem_of_nil.
  - rewrite not_elem_of_cons. case_bool_decide as Heq.
    + split; [done|]. by intros [? _].
    + rewrite IH. naive_solver.
Qed.

Lemma record_wrong_NoDup isCorrect currentTerm prev :
  NoDup (term <$> prev) →
  NoDup (term <$> record_wrong isCorrect currentTerm prev).
Proof.
  intros Hnd. unfold record_wrong. destruct isCorrect; [done|].
  destruct (find_term currentTerm prev) eqn:Hfind; [done|].
  apply find_term_None in Hfind.
  rewrite fmap_app. apply NoDup_app. split_and!; [done| |apply NoDup_singleton].
  intros x Hx ->%list_elem_of_singleton. done.
Qed.

Lemma record_wrong_texts isCorrect currentTerm prev :
  (list_to_set (term <$> record_wrong isCorrect currentTerm prev) : gset string)
  = list_to_set (term <$> prev)
    ∪ (if isCorrect then ∅ else {[term currentTerm]}).
Proof.
  unfold record_wrong. destruct isCorrect; [set_solver|].
  destruct (find_term currentTerm prev) eqn:Hfind.
  - assert (term currentTerm ∈ term <$> prev) as Hin.
    { destruct (decide (term currentTerm ∈ term <$> prev)) as [|Hn]; [done|].
      apply find_term_None in Hn. congruence. }
    set_solver.
  - rewrite fmap_app, list_to_set_app_L. set_solver.
Qed.

Lemma record_wrong_elem isCorrect currentTerm prev t :
  t ∈ record_wrong isCorrect currentTerm prev →
  t ∈ prev ∨ (isCorrect = false ∧ t = currentTerm).
Proof.
  unfold record_wrong. destruct isCorrect; [by left|].
  destruct (find_term currentTerm prev); [by left|].
  rewrite elem_of_app, list_elem_of_singleton. intros [?|?]; auto.
Qed.

(** The last answer computes the score from the same list that is left in
    the state. *)
Lemma handleNextQuestion_last quizType isCorrect st currentTerm :
  shuffledQuestions st !! currentIndex st = Some currentTerm →
  ¬ currentIndex st + 1 < length (shuffledQuestions st) →
  handleNextQuestion quizType isCorrect st
  = Some ({| gameState := results; currentIndex := currentIndex st;
             wrongAnswers := record_wrong isCorrect currentTerm (wrongAnswers st);
             shuffledQuestions := shuffledQuestions st |},
          [QuizComplete quizType
             (Z.of_nat (length (shuffledQuestions st))
              - Z.of_nat (length (record_wrong isCorrect currentTerm
                                    (wrongAnswers st))))
             (Z.of_nat (length (shuffledQuestions st)))]).
Proof.
  intros Hcur Hlast. unfold handleNextQuestion, record_wrong.
  rewrite Hcur, bool_decide_eq_false_2 by done.
  destruct isCorrect; [done|]. simpl.
  destruct (find_term currentTerm (wrongAnswers st)) eqn:Hfind.
  - by rewrite bool_decide_eq_true_2 by done.
  - rewrite bool_decide_eq_false_2; [done|]. by intros [? ?].
Qed.

Lemma handleNextQuestion_next quizType isCorrect st currentTerm :
  shuffledQuestions st !! currentIndex st = Some currentTerm →
  currentIndex st + 1 < length (shuffledQuestions st) →
  handleNextQuestion quizType isCorrect st
  = Some ({| gameState := gameState st; currentIndex := currentIndex st + 1;
             wrongAnswers := record_wrong isCorrect currentTerm (wrongAnswers st);
             shuffledQuestions := shuffledQuestions st |}, []).
Proof.
  intros Hcur Hnext. unfold handleNextQuestion, record_wrong.
  by rewrite Hcur, bool_decide_eq_true_2 by done.
Qed.

Lemma wrong_terms_cons t qs isCorrect verdicts :
  wrong_terms (t :: qs) (isCorrect :: verdicts)
  = (if isCorrect then [] else [t]) ++ wrong_terms qs verdicts.
Proof.
  unfold wrong_terms. simpl. rewrite filter_cons. simpl.
  destruct isCorrect; by case_decide.
Qed.

Lemma wrong_terms_nil qs : wrong_terms qs [] = [].
Proof. unfold wrong_terms. by destruct qs. Qed.

(** While questions remain the session stays in [playing], moves on by one
    and calls nothing. *)
Lemma play_before_end quizType verdicts st :
  currentIndex st + length verdicts < length (shuffledQuestions st) →
  ∃ st', play quizType verdicts st = Some (st', []) ∧
         gameState st' = gameState st ∧
         currentIndex st' = currentIndex st + length verdicts ∧
         shuffledQuestions st' = shuffledQuestions st.
Proof.
  revert st. induction verdicts as [|isCorrect verdicts IH]; intros st Hlen.
  { exists st. simpl. repeat split; auto. }
  simpl in *.
  destruct (lookup_lt_is_Some_2 (shuffledQuestions st) (currentIndex st))
    as [currentTerm Hcur]; [lia|].
  rewrite (handleNextQuestion_next _ _ _ currentTerm) by (done || lia).
  simpl.
  edestruct (IH {| gameState := gameState st;
                   currentIndex := currentIndex st + 1;
                   wrongAnswers := record_wrong isCorrect currentTerm
                                     (wrongAnswers st);
                   shuffledQuestions := shuffledQuestions st |})
    as (st' & -> & Hg & Hi & Hq); [simpl; lia|].
  exists st'. simpl in *. repeat split; auto. lia.
Qed.

(** Answering all the remaining questions ends the session. *)
Lemma play_to_end quizType verdicts st :
  verdicts ≠ [] →
  currentIndex st + length verdicts = length (shuffledQuestions st) →
  NoDup (term <$> wrongAnswers st) →
  ∃ st',
    play quizType verdicts st
    = Some (st', [QuizComplete quizType
                    (Z.of_nat (length (shuffledQuestions st))
                     - Z.of_nat (length (wrongAnswers st')))
                    (Z.of_nat (length (shuffledQuestions st)))]) ∧
    gameState st' = results ∧
    shuffledQuestions st' = shuffledQuestions st ∧
    NoDup (term <$> wrongAnswers st') ∧
    (list_to_set (term <$> wrongAnswers st') : gset string)
    = list_to_set (term <$> wrongAnswers st)
      ∪ list_to_set
          (term <$> wrong_terms (drop (currentIndex st) (shuffledQuestions st))
                      verdicts) ∧
    (∀ t, t ∈ wrongAnswers st' →
          t ∈ wrongAnswers st ∨
          t ∈ wrong_terms (drop (currentIndex st) (shuffledQuestions st))
                verdicts).
Proof.
  revert st. induction verdicts as [|isCorrect verdicts IH]; [done|].
  intros st _ Hlen Hnd. simpl in Hlen.
  destruct (lookup_lt_is_Some_2 (shuffledQuestions st) (currentIndex st))
    as [currentTerm Hcur]; [lia|].
  rewrite (drop_S _ currentTerm) by done. rewrite wrong_terms_cons.
  pose proof (record_wrong_NoDup isCorrect currentTerm _ Hnd) as Hnd'.
  pose proof (record_wrong_texts isCorrect currentTerm (wrongAnswers st))
    as Htexts.
  simpl play. destruct verdicts as [|isCorrect' verdicts].
  - rewrite (handleNextQuestion_last _ _ _ currentTerm)
      by (done || simpl in Hlen; lia).
    exists {| gameState := results; currentIndex := currentIndex st;
              wrongAnswers := record_wrong isCorrect currentTerm
                                (wrongAnswers st);
              shuffledQuestions := shuffledQuestions st |}.
    simpl. split_and!; [done|done|done|done| |].
    + rewrite Htexts, wrong_terms_nil, app_nil_r.
      destruct isCorrect; simpl; [done|].
      by rewrite union_empty_r_L.
    + intros t [?|[-> ->]]%record_wrong_elem; [by left|].
      right. apply list_elem_of_here.
  - rewrite (handleNextQuestion_next _ _ _ currentTerm)
      by (done || simpl in Hlen; lia).
    cbn [mbind option_bind].
    edestruct (IH {| gameState := gameState st;
                     currentIndex := currentIndex st + 1;
                     wrongAnswers := record_wrong isCorrect currentTerm
                                       (wrongAnswers st);
                     shuffledQuestions := shuffledQuestions st |})
      as (st' & Hplay & Hg & Hq & Hnd'' & Hset & Hfrom);
      [done|simpl in *; lia|done|].
    rewrite Hplay. simpl in *. exists st'.
    replace (currentIndex st + 1) with (S (currentIndex st)) in * by lia.
    split_and!; [done|done|done|done| |].
    + rewrite Hset, Htexts.
      rewrite fmap_app, list_to_set_app_L. destruct isCorrect; set_solver.
    + intros t [[?|[-> ->]]%record_wrong_elem|?]%Hfrom; rewrite ?elem_of_app;
        auto using list_elem_of_here.
Qed.

(** C6. A session over a list of questions that is not empty, answered to
    the end: before the last answer the state stays [playing] and nothing
    is called; the last answer moves the state to [results] and calls the
    completion callback once, with the quiz type, the total, and the score:
    the total less the number of different terms that were answered
    wrongly. The state keeps each of those terms once. *)
Theorem quiz_completion (quizType : PracticeType) (questions : list TermData)
    (g : RNG) (verdicts : list bool) :
  questions ≠ [] →
  length verdicts = length questions →
  ∃ st,
    play quizType verdicts (openQuiz questions g).1
    = Some (st, [QuizComplete quizType
                   (Z.of_nat (length questions)
                    - Z.of_nat (distinct_terms
                                  (wrong_terms (shuffleArray questions g).1
                                     verdicts)))
                   (Z.of_nat (length questions))]) ∧
    gameState st = results ∧
    NoDup (term <$> wrongAnswers st) ∧
    length (wrongAnswers st)
    = distinct_terms (wrong_terms (shuffleArray questions g).1 verdicts) ∧
    (∀ t, t ∈ wrongAnswers st →
          t ∈ wrong_terms (shuffleArray questions g).1 verdicts) ∧
    (∀ k, k < length questions →
       ∃ st_k, play quizType (take k verdicts) (openQuiz questions g).1
               = Some (st_k, []) ∧
               gameState st_k = playing ∧ currentIndex st_k = k).
Proof.
  intros Hne Hlen. unfold openQuiz.
  destruct (shuffleArray questions g) as [shuffled g'] eqn:Hs. simpl.
  apply shuffleArray_result in Hs as [Hperm Hl].
  set (st0 := {| gameState := playing; currentIndex := 0; wrongAnswers := [];
                 shuffledQuestions := shuffled |}).
  destruct (play_to_end quizType verdicts st0)
    as (st & Hplay & Hres & Hq & Hnd & Hset & Hfrom).
  { destruct verdicts; [|done]. destruct questions; simpl in *; done. }
  { simpl. lia. }
  { simpl. apply NoDup_nil_2. }
  simpl in Hset, Hfrom. rewrite drop_0, union_empty_l_L in Hset.
  assert (length (wrongAnswers st) = distinct_terms (wrong_terms shuffled verdicts))
    as Hcount.
  { unfold distinct_terms. rewrite <- Hset, size_list_to_set by done.
    by rewrite length_fmap. }
  exists st. split_and!; auto.
  - rewrite Hplay. simpl. by rewrite Hcount, Hl.
  - intros t [[]%elem_of_nil|?]%Hfrom. done.
  - intros k Hk.
    destruct (play_before_end quizType (take k verdicts) st0)
      as (st_k & Hp & Hg & Hi & _).
    { simpl. rewrite length_take. lia. }
    exists st_k. split_and!; auto.
    simpl in Hi. rewrite Hi, length_take. lia.
Qed.

Lemma quiz_completion_witness :
  ∃ st, play meaningMatch [true; false; true; false]
          (openQuiz four_terms sample_rng).1
        = Some (st, [QuizComplete meaningMatch 2 4]) ∧
        gameState st = results.
Proof.
  destruct (quiz_completion meaningMatch four_terms sample_rng
              [true; false; true; false])
    as (st & Hplay & Hres & _); [done|done|].
  exists st. split; [|done]. rewrite Hplay. reflexivity.
Defined.

(** C7. On the results screen the redeem action, where wrong answers are
    recorded, starts a new run in [playing] whose question list is a
    permutation of exactly the terms answered wrongly, with no wrong
    answers recorded and the index back at 0. Without wrong answers there
    is no button and the action changes nothing. *)
Theorem redeem_replays_wrong_terms (st : QuizState) (g : RNG) :
  gameState st = results →
  (wrongAnswers st = [] →
   redeem_button st = false ∧ redeem st g = (st, g)) ∧
  (wrongAnswers st ≠ [] →
   redeem_button st = true ∧
   ∃ st' g',
     redeem st g = (st', g') ∧
     gameState st' = playing ∧
     shuffledQuestions st' ≡ₚ wrongAnswers st ∧
     length (shuffledQuestions st') = length (wrongAnswers st) ∧
     wrongAnswers st' = [] ∧
     currentIndex st' = 0).
Proof.
  intros Hres. unfold redeem, redeem_button. rewrite Hres. split.
  - intros ->. simpl. done.
  - intros Hne.
    assert (0 < length (wrongAnswers st)) as Hpos
      by (destruct (wrongAnswers st); simpl; [done|lia]).
    rewrite !bool_decide_eq_true_2 by done. simpl. split; [done|].
    unfold handleRedeem.
    destruct (shuffleArray (wrongAnswers st) g) as [shuffled g'] eqn:Hs.
    apply shuffleArray_result in Hs as [Hperm Hl].
    eexists _, _. split; [reflexivity|]. simpl. auto.
Qed.

Lemma redeem_replays_wrong_terms_witness :
  ∃ st' g',
    redeem finished_quiz sample_rng = (st', g') ∧
    gameState st' = playing ∧
    shuffledQuestions st' ≡ₚ [brisk; candid] ∧
    wrongAnswers st' = [] ∧
    currentIndex st' = 0.
Proof.
  destruct (redeem_replays_wrong_terms finished_quiz sample_rng) as [_ Hsome].
  - reflexivity.
  - destruct Hsome as (_ & st' & g' & Hr & Hg & Hp & _ & Hw & Hi); [done|].
    by exists st', g'.
Defined.

(** * The fill-in-the-blank step on a text without syntax characters *)

Lemma replaced_ext (occ1 occ2 : string → Prop) marker s out :
  (∀ m, occ1 m ↔ occ2 m) →
  replaced occ1 marker s out → replaced occ2 marker s out.
Proof.
  intros Hiff. induction 1 as [|m rest out Hm _ IH|c s out Hno _ IH].
  - constructor.
  - constructor; [by apply Hiff|done].
  - constructor; [|done]. intros m rest Hm%Hiff. by apply Hno.
Qed.

Lemma match_here_spec ignoreCase cs s :
  match_here ignoreCase (Lit <$> cs) s = true ↔
  ∃ m rest, s = m +:+ rest ∧ agrees ignoreCase cs m.
Proof.
  revert s. induction cs as [|p cs IH]; intros s; simpl.
  - split; [|done]. intros _. by exists EmptyString, s.
  - destruct s as [|c s].
    + split; [done|]. intros ([|??] & rest & Heq & Hm); simpl in *; done.
    + rewrite andb_true_iff, bool_decide_eq_true, IH. split.
      * intros (Hc & m & rest & -> & Hm). by exists (String c m), rest.
      * intros ([|c' m] & rest & Heq & Hm); simpl in *; [done|].
        destruct Hm as [Hc Hm]. injection Heq as <- ->. eauto.
Qed.

Lemma agrees_length ignoreCase cs m :
  agrees ignoreCase cs m → String.length m = length cs.
Proof.
  revert m. induction cs as [|p cs IH]; intros [|c m]; simpl; try done.
  intros [_ Hm]. f_equal. by apply IH.
Qed.

(** Behind a match the search resumes after the matched characters. *)
Lemma replace_from_skip ignoreCase atoms marker u rest :
  atoms ≠ [] →
  replace_from ignoreCase atoms marker (String.length u) (u +:+ rest)
  = replace_from ignoreCase atoms marker 0 rest.
Proof.
  intros Hne. induction u as [|c u IH]; simpl; [|done].
  destruct rest; [|done]. simpl. by destruct atoms.
Qed.

Lemma length_append (m rest : string) :
  String.length (m +:+ rest) = String.length m + String.length rest.
Proof. induction m as [|c m IH]; simpl; [done|]. by rewrite IH. Qed.

Lemma replace_all_replaced ignoreCase cs marker s :
  cs ≠ [] →
  replaced (agrees ignoreCase cs) marker s
    (replace_all ignoreCase (Lit <$> cs) marker s).
Proof.
  intros Hne. unfold replace_all.
  assert (Lit <$> cs ≠ []) as Hatoms by (by destruct cs).
  remember (String.length s) as n eqn:Hn.
  revert s Hn. induction (lt_wf n) as [n _ IH]. intros s ->.
  destruct s as [|c s]; simpl.
  { destruct (Lit <$> cs) eqn:Hcs; [done|]. constructor. }
  destruct (match_here ignoreCase (Lit <$> cs) (String c s)) eqn:Hmatch.
  - apply match_here_spec in Hmatch as (m & rest & Heq & Hm).
    pose proof (agrees_length _ _ _ Hm) as Hlen.
    destruct m as [|c' m]; [by destruct cs|].
    simpl in Heq. injection Heq as <- ->.
    rewrite length_fmap, <- Hlen. simpl.
    rewrite replace_from_skip by done.
    apply (replaced_hit _ _ (String c m)); [done|].
    eapply IH; [|reflexivity]. simpl. rewrite length_append. lia.
  - apply replaced_keep.
    + intros m rest Hm Heq.
      assert (match_here ignoreCase (Lit <$> cs) (String c s) = true) as Hyes
        by (apply match_here_spec; eauto).
      congruence.
    + eapply IH; [|reflexivity]. simpl. lia.
Qed.

(** Upper-casing and lower-casing identify the same characters. *)
Lemma lower_upper_char c : lower_char (upper_char c) = lower_char c.
Proof. destruct c as [[] [] [] [] [] [] [] []]; reflexivity. Qed.

Lemma upper_lower_char c : upper_char (lower_char c) = upper_char c.
Proof. destruct c as [[] [] [] [] [] [] [] []]; reflexivity. Qed.

Lemma canonical_iff_lower p c :
  canonicalize true p = canonicalize true c ↔ lower_char c = lower_char p.
Proof.
  simpl. split; intros Heq.
  - by rewrite <- (lower_upper_char c), <- Heq, lower_upper_char.
  - by rewrite <- (upper_lower_char c), Heq, upper_lower_char.
Qed.

Lemma agrees_ignoring_case text m :
  agrees true (list_ascii_of_string text) m ↔ same_ignoring_case text m.
Proof.
  unfold same_ignoring_case. revert m.
  induction text as [|p text IH]; intros [|c m]; simpl; try done.
  rewrite canonical_iff_lower, IH. split.
  - by intros [-> ->].
  - by intros [= -> ->].
Qed.

Lemma agrees_stars m :
  agrees false ["*"; "*"]%char m ↔ m = "**".
Proof.
  destruct m as [|c1 [|c2 [|c3 m]]]; simpl.
  - split; [intros []|done].
  - split; [intros [_ []]|done].
  - split; [by intros (<- & <- & _)|by intros [= -> ->]].
  - split; [intros (_ & _ & [])|done].
Qed.

Lemma atoms_of_plain text :
  Forall (λ c, is_syntax_char c = false) (list_ascii_of_string text) →
  atoms_of text = Some (Lit <$> list_ascii_of_string text).
Proof.
  induction text as [|c text IH]; simpl; [done|].
  intros [Hc Htext]%Forall_cons.
  rewrite Hc, IH by done. rewrite bool_decide_eq_false_2; [done|].
  intros ->. by vm_compute in Hc.
Qed.

Lemma toLowerCase_length s : String.length (toLowerCase s) = String.length s.
Proof. induction s as [|c s IH]; simpl; [done|]. by rewrite IH. Qed.

Lemma same_ignoring_case_length text m :
  same_ignoring_case text m → String.length m = String.length text.
Proof.
  unfold same_ignoring_case. intros Heq.
  by rewrite <- (toLowerCase_length m), Heq, toLowerCase_length.
Qed.

Lemma append_inj_length (m1 m2 r1 r2 : string) :
  m1 +:+ r1 = m2 +:+ r2 → String.length m1 = String.length m2 →
  m1 = m2 ∧ r1 = r2.
Proof.
  revert m2. induction m1 as [|c m1 IH]; intros [|c' m2]; simpl; try done.
  intros [= -> Heq] [= Hlen]. destruct (IH _ Heq Hlen) as [-> ->]. done.
Qed.

(** When all occurrences have one length, not zero, the specification's
    reading fixes the result. *)
Lemma replaced_functional (occurrence : string → Prop) marker n s out1 out2 :
  0 < n →
  (∀ m, occurrence m → String.length m = n) →
  replaced occurrence marker s out1 →
  replaced occurrence marker s out2 →
  out1 = out2.
Proof.
  intros Hn Hocc H1. revert out2.
  induction H1 as [|m rest out Hm _ IH|c s out Hno _ IH]; intros out2 H2.
  - inversion H2 as [|m' rest' out' Hm' _ Heq|]; [done|].
    apply Hocc in Hm'. destruct m'; simpl in *; [lia|done].
  - pose proof (Hocc _ Hm) as Hlen.
    inversion H2 as [Heq|m' rest' out' Hm' Hrest' Heq|c s' out' Hno' _ Heq].
    + destruct m; simpl in *; [lia|done].
    + pose proof (Hocc _ Hm') as Hlen'.
      apply append_inj_length in Heq as [-> ->]; [|lia].
      f_equal. by apply IH.
    + exfalso. by eapply Hno'.
  - inversion H2 as [|m' rest' out' Hm' _ Heq|c' s' out' _ Hrest' [Hc Hs]].
    + exfalso. by eapply Hno.
    + f_equal. by apply IH.
Qed.

(** C3, as the code has it. A term whose details for the first meaning
    hold a first example that is not empty, and whose text is not empty
    and free of regular-expression syntax characters, gets a
    fill-in-the-blank question: its sentence is that example with the
    emphasis markers taken out and then every occurrence of the text,
    whatever its case, taken from left to right, replaced by the blank
    marker; that sentence is the only one the specification's reading
    allows; its answer is the text of the term. For "ambiguous" and "The
    contract was **ambiguous** in places." the sentence is "The contract was
    _____ in places.". *)
Theorem fill_blank_plain_text regexp_engine (t : TermData) (index : nat)
    (qs : list AssessmentQuestion) (example : string) :
  truthy (first_example t) = Some example →
  term t ≠ EmptyString →
  Forall (λ c, is_syntax_char c = false) (list_ascii_of_string (term t)) →
  (∃ stripped sentence,
     replaced (λ m, m = "**") EmptyString example stripped ∧
     replaced (same_ignoring_case (term t)) "_____" stripped sentence ∧
     (∀ other, replaced (same_ignoring_case (term t)) "_____" stripped other →
               other = sentence) ∧
     fillQuestion regexp_engine t index qs
     = Ok (qs ++ [FillBlank ("fill-" +:+ pretty index) sentence (term t)])) ∧
  fillQuestion regexp_engine ambiguous 0 []
  = Ok [FillBlank "fill-0" "The contract was _____ in places." "ambiguous"].
Proof.
  intros Hex Hne Hplain. split; [|vm_compute; reflexivity].
  unfold fillQuestion, blank_out, compile.
  rewrite Hex, (atoms_of_plain _ Hplain). simpl.
  assert (replaced (same_ignoring_case (term t)) "_____"
            (replace_all false [Lit "*"; Lit "*"] EmptyString example)
            (replace_all true (Lit <$> list_ascii_of_string (term t)) "_____"
               (replace_all false [Lit "*"; Lit "*"] EmptyString example)))
    as Hblank.
  { eapply replaced_ext; [apply agrees_ignoring_case|].
    apply replace_all_replaced. by destruct (term t). }
  eexists _, _. split_and!; [|exact Hblank| |reflexivity].
  - eapply replaced_ext; [apply agrees_stars|].
    by apply (replace_all_replaced false ["*"; "*"]%char).
  - intros other Hother.
    eapply (replaced_functional _ _ (String.length (term t)));
      [|apply same_ignoring_case_length|exact Hother|exact Hblank].
    destruct (term t); simpl; [done|lia].
Qed.

Lemma fill_blank_plain_text_witness :
  ∃ stripped sentence,
    replaced (λ m, m = "**") EmptyString "She gave a **candid** answer."
      stripped ∧
    replaced (same_ignoring_case "candid") "_____" stripped sentence ∧
    fillQuestion no_engine candid 2 []
    = Ok [FillBlank "fill-2" sentence "candid"].
Proof.
  destruct (fill_blank_plain_text no_engine candid 2 []
              "She gave a **candid** answer.")
    as [(stripped & sentence & Hs & Hb & _ & Hq) _].
  - reflexivity.
  - done.
  - repeat constructor.
  - by exists stripped, sentence.
Defined.

(** C3 as stated fails in two ways. A term with an example stored for its
    second meaning only, or with an empty first example, gets no
    fill-in-the-blank question. And in the sentence for "a.m." the dots act
    as wildcards: "arms" is blanked out too, where replacing the occurrences
    of the text leaves "alarms" alone. *)
Lemma fill_blank_misses_claim :
  (∃ d, details second_meaning_only = Some d ∧
        d !! 1 = Some {| examples := ["A **brisk** wind blew."] |}) ∧
  fillQuestion no_engine second_meaning_only 0 [] = Ok [] ∧
  first_example empty_example = Some EmptyString ∧
  fillQuestion no_engine empty_example 0 [] = Ok [] ∧
  fillQuestion no_engine a_m 0 []
  = Ok [FillBlank "fill-0" "The al_____ rang at 6 _____ today." "a.m."] ∧
  replaced (λ m, m = "**") EmptyString "The alarms rang at 6 **a.m.** today."
    "The alarms rang at 6 a.m. today." ∧
  replaced (same_ignoring_case "a.m.") "_____"
    "The alarms rang at 6 a.m. today." "The alarms rang at 6 _____ today." ∧
  ¬ replaced (same_ignoring_case "a.m.") "_____"
      "The alarms rang at 6 a.m. today." "The al_____ rang at 6 _____ today.".
Proof.
  assert (replaced (same_ignoring_case "a.m.") "_____"
            "The alarms rang at 6 a.m. today."
            "The alarms rang at 6 _____ today.") as Hspec.
  { eapply replaced_ext; [apply agrees_ignoring_case|].
    by apply (replace_all_replaced true (list_ascii_of_string "a.m.")). }
  split_and!.
  - eexists. split; reflexivity.
  - reflexivity.
  - reflexivity.
  - reflexivity.
  - vm_compute. reflexivity.
  - eapply replaced_ext; [apply agrees_stars|].
    by apply (replace_all_replaced false ["*"; "*"]%char).
  - exact Hspec.
  - intros Hcode.
    pose proof (replaced_functional _ _ 4 _ _ _ ltac:(lia)
                  (same_ignoring_case_length "a.m.") Hcode Hspec) as Heq.
    discriminate Heq.
Qed.

(** * Further properties *)

(** ** White space and case *)

Lemma is_space_lower_char c : is_space (lower_char c) = is_space c.
Proof. by destruct c as [[] [] [] [] [] [] [] []]. Qed.

Lemma trimStart_lower s : trimStart (toLowerCase s) = toLowerCase (trimStart s).
Proof.
  induction s as [|c s IH]; simpl; [done|].
  rewrite is_space_lower_char. by destruct (is_space c).
Qed.

Lemma trimEnd_lower s : trimEnd (toLowerCase s) = toLowerCase (trimEnd s).
Proof.
  induction s as [|c s IH]; simpl; [done|].
  rewrite IH, is_space_lower_char.
  destruct (trimEnd s); simpl; [|done]. by destruct (is_space c).
Qed.

Lemma trim_lower s : trim (toLowerCase s) = toLowerCase (trim s).
Proof. unfold trim. by rewrite trimStart_lower, trimEnd_lower. Qed.

Lemma blank_nil : blank EmptyString.
Proof. constructor. Qed.

Lemma blank_cons c s : blank (String c s) ↔ is_space c = true ∧ blank s.
Proof. unfold blank. simpl. exact (list.Forall_cons _ c _). Qed.

Lemma trimStart_blank s : blank s → trimStart s = EmptyString.
Proof.
  induction s as [|c s IH]; [done|].
  intros [Hc Hs]%blank_cons. simpl. rewrite Hc. auto.
Qed.

Lemma trimEnd_blank s : blank s → trimEnd s = EmptyString.
Proof.
  induction s as [|c s IH]; [done|].
  intros [Hc Hs]%blank_cons. simpl. by rewrite IH, Hc.
Qed.

Lemma trimEnd_empty s : trimEnd s = EmptyString → blank s.
Proof.
  induction s as [|c s IH]; [intros; apply blank_nil|]. simpl.
  destruct (trimEnd s) eqn:Hs; [|done].
  destruct (is_space c) eqn:Hc; [|done]. intros _. apply blank_cons. auto.
Qed.

Lemma trimStart_append pad s : blank pad → trimStart (pad +:+ s) = trimStart s.
Proof.
  induction pad as [|c pad IH]; [done|].
  intros [Hc Hs]%blank_cons. simpl. rewrite Hc. auto.
Qed.

Lemma trimEnd_append s pad : blank pad → trimEnd (s +:+ pad) = trimEnd s.
Proof.
  intros Hpad. induction s as [|c s IH]; simpl.
  - by apply trimEnd_blank.
  - by rewrite IH.
Qed.

(** White space around a string does not change what [trim] gives. *)
Lemma trim_padded pad1 s pad2 :
  blank pad1 → blank pad2 → trim (pad1 +:+ s +:+ pad2) = trim s.
Proof.
  intros H1 H2. unfold trim. rewrite trimStart_append by done.
  induction s as [|c s IH]; simpl.
  - by rewrite trimStart_blank.
  - destruct (is_space c); [done|].
    change (String c (s +:+ pad2)) with (String c s +:+ pad2).
    by rewrite trimEnd_append.
Qed.

Lemma trim_blank s : trim s = EmptyString ↔ blank s.
Proof.
  unfold trim. split.
  - induction s as [|c s IH]; [intros; apply blank_nil|]. simpl.
    destruct (is_space c) eqn:Hc.
    + intros Hs. apply blank_cons. auto.
    + intros Hs%trimEnd_empty. apply blank_cons in Hs as [? _]. congruence.
  - intros Hs. by rewrite trimStart_blank.
Qed.

Lemma trimStart_shorter s :
  trimStart s = s ∨ String.length (trimStart s) < String.length s.
Proof.
  induction s as [|c s IH]; simpl; [by left|].
  destruct (is_space c); [|by left]. right. destruct IH as [->|]; lia.
Qed.

Lemma trimEnd_shorter s :
  trimEnd s = s ∨ String.length (trimEnd s) < String.length s.
Proof.
  induction s as [|c s IH]; simpl; [by left|].
  destruct IH as [->|Hlt].
  - destruct s; [|by left]. destruct (is_space c); [right; simpl; lia|by left].
  - right. destruct (trimEnd s); [|simpl in *; lia].
    destruct (is_space c); simpl in *; lia.
Qed.

Lemma trim_same_length s :
  String.length (trim s) = String.length s → trim s = s.
Proof.
  unfold trim. intros Hlen.
  destruct (trimStart_shorter s) as [Hs|Hs],
    (trimEnd_shorter (trimStart s)) as [He|He].
  - by rewrite He.
  - rewrite Hs in *. lia.
  - rewrite He in Hlen. lia.
  - lia.
Qed.

Lemma trimEnd_idempotent s : trimEnd (trimEnd s) = trimEnd s.
Proof.
  induction s as [|c s IH]; simpl; [done|].
  destruct (trimEnd s) as [|c' kept] eqn:Hs.
  - destruct (is_space c) eqn:Hc; simpl; [done|]. by rewrite Hc.
  - cbn [trimEnd]. cbn [trimEnd] in IH. by rewrite IH.
Qed.

Lemma trimStart_trimEnd s :
  trimStart s = s → trimStart (trimEnd s) = trimEnd s.
Proof.
  destruct s as [|c s]; simpl; [done|].
  destruct (is_space c) eqn:Hc.
  - intros Hs. pose proof (trimStart_shorter s) as [Hs'|Hs'];
      rewrite Hs in Hs'; simpl in Hs'; [|lia].
    apply (f_equal String.length) in Hs'. simpl in Hs'. lia.
  - intros _. destruct (trimEnd s); simpl; by rewrite Hc.
Qed.

Lemma trimStart_idempotent s : trimStart (trimStart s) = trimStart s.
Proof.
  induction s as [|c s IH]; simpl; [done|].
  destruct (is_space c) eqn:Hc; [done|]. simpl. by rewrite Hc.
Qed.

Lemma trim_idempotent s : trim (trim s) = trim s.
Proof.
  unfold trim.
  rewrite (trimStart_trimEnd (trimStart s)) by apply trimStart_idempotent.
  apply trimEnd_idempotent.
Qed.

(** An expected answer that a trimmed answer can equal up to case has no
    white space around it. *)
Lemma trimmed_of_match s correctAnswer :
  toLowerCase (trim s) = toLowerCase correctAnswer → trim correctAnswer = correctAnswer.
Proof.
  intros Heq. apply trim_same_length.
  rewrite <- (toLowerCase_length (trim correctAnswer)), <- trim_lower, <- Heq.
  rewrite trim_lower, trim_idempotent, Heq. apply toLowerCase_length.
Qed.

(** ** The grader and the question views *)

Lemma view_isCorrect_all_matched (pairs correctPairs : gmap string string) :
  view_isCorrect true (Some pairs) correctPairs = all_matched correctPairs pairs.
Proof.
  unfold view_isCorrect.
  destruct (size pairs <? size correctPairs) eqn:Hsize; [|done].
  apply Nat.ltb_lt in Hsize. symmetry. apply not_true_is_false. intros Hall.
  assert (correctPairs ⊆ pairs) as Hsub%map_subseteq_size; [|lia].
  apply map_subseteq_spec. by apply all_matched_spec.
Qed.

Lemma grade_question_shown (answers : gmap string Answer) (count : nat)
    (q : AssessmentQuestion) :
  (∀ a, answers !! question_id q = Some a → answer_fits q a) →
  grade_question answers count q
  = Ok (if shown_correct answers q then S count else count).
Proof.
  intros Hfit. unfold grade_question, shown_correct.
  destruct (answers !! question_id q) as [a|] eqn:Ha.
  2:{ by destruct q. }
  specialize (Hfit a eq_refl).
  destruct q, a; simpl in *; try done.
  - unfold mcq_view_isCorrect.
    case_bool_decide as H1; case_bool_decide as H2; simplify_eq; done.
  - pose proof (view_isCorrect_all_matched pairs correctPairs) as Hview.
    simpl in Hview. by rewrite Hview.
Qed.

Lemma grade_all_shown (answers : gmap string Answer) (count : nat)
    (qs : list AssessmentQuestion) :
  (∀ q a, q ∈ qs → answers !! question_id q = Some a → answer_fits q a) →
  grade_all answers count qs
  = Ok (count + length (filter (λ q, shown_correct answers q = true) qs)).
Proof.
  revert count. induction qs as [|q qs IH]; intros count Hfit; simpl.
  { f_equal. lia. }
  rewrite grade_question_shown by (intros a; apply Hfit, list_elem_of_here).
  simpl. rewrite IH by (intros q' a Hq'; apply Hfit; by right).
  destruct (shown_correct answers q) eqn:Hq.
  - rewrite filter_cons_True by done. simpl. f_equal. lia.
  - rewrite filter_cons_False by (by rewrite Hq). done.
Qed.

(** X1. Submitting an assessment whose stored answers are of the kind
    their questions' views produce never throws: the state becomes
    [submitted], the data and the answers are kept, and the score is the
    number of questions whose view shows them as correct, which is at most
    the number of questions. *)
Theorem submission_counts_shown_correct (st : ModalState) (data : AssessmentData) :
  assessmentData st = Some data →
  answers_fit data (answers st) →
  handleSubmit st
  = Ok {| assessmentData := Some data; status := submitted;
          answers := answers st;
          score := length (filter (λ q, shown_correct (answers st) q = true)
                             (questions data)) |} ∧
  length (filter (λ q, shown_correct (answers st) q = true) (questions data))
  ≤ length (questions data).
Proof.
  intros Hdata Hfit. split; [|apply length_filter].
  unfold handleSubmit. rewrite Hdata. by rewrite grade_all_shown.
Qed.

Lemma submission_counts_shown_correct_witness :
  handleSubmit
    {| assessmentData :=
         Some {| title := "Vocabulary Assessment (2 Questions)";
                 questions := [FillBlank "fill-0" "A _____ walk." "brisk";
                               Written "written-0" "Write a sentence." "A model."] |};
       status := taking;
       answers := {[ "fill-0" := AnsString " Brisk " ]};
       score := 0 |}
  = Ok {| assessmentData :=
            Some {| title := "Vocabulary Assessment (2 Questions)";
                    questions := [FillBlank "fill-0" "A _____ walk." "brisk";
                                  Written "written-0" "Write a sentence." "A model."] |};
          status := submitted;
          answers := {[ "fill-0" := AnsString " Brisk " ]};
          score := 1 |}.
Proof.
  refine (proj1 (submission_counts_shown_correct
                   {| assessmentData := Some _; status := taking;
                      answers := {[ "fill-0" := AnsString " Brisk " ]};
                      score := 0 |} _ eq_refl _)).
  intros q a Hq Ha. cbn [questions] in Hq.
  apply elem_of_cons in Hq as [->|Hq].
  { vm_compute in Ha. by simplify_eq. }
  apply list_elem_of_singleton in Hq as ->. vm_compute in Ha. done.
Defined.

(** X2. A fill-in-the-blank answer that is the expected answer up to the
    case of its letters, with any white space before and after it, is
    marked correct, by the grader and by the view, when the expected
    answer itself has no white space around it. *)
Theorem fill_accepts_padded_answer (id sentence correctAnswer : string)
    (pad1 typed pad2 : string) :
  blank pad1 → blank pad2 →
  same_ignoring_case correctAnswer typed →
  trim correctAnswer = correctAnswer →
  isQuestionCorrect (FillBlank id sentence correctAnswer)
    (AnsString (pad1 +:+ typed +:+ pad2)) = Ok true ∧
  fill_view_isCorrect (Some (pad1 +:+ typed +:+ pad2)) correctAnswer = true.
Proof.
  unfold same_ignoring_case. intros H1 H2 Hsame Htrim.
  assert (toLowerCase (trim (pad1 +:+ typed +:+ pad2)) = toLowerCase correctAnswer)
    as Heq.
  { rewrite trim_padded by done.
    by rewrite <- trim_lower, Hsame, trim_lower, Htrim. }
  simpl. by rewrite bool_decide_eq_true_2.
Qed.

Lemma fill_accepts_padded_answer_witness :
  isQuestionCorrect (FillBlank "fill-0" "A _____ walk." "brisk")
    (AnsString ("  " +:+ "BRisk" +:+ " ")) = Ok true.
Proof.
  refine (proj1 (fill_accepts_padded_answer "fill-0" "A _____ walk." "brisk"
                   "  " "BRisk" " " _ _ _ _)).
  - repeat constructor.
  - repeat constructor.
  - reflexivity.
  - reflexivity.
Defined.

(** X3. The expected answer of a fill-in-the-blank question is compared
    as it is, while the user's answer is trimmed: when the expected answer
    begins or ends with white space, no answer whatever is marked
    correct. *)
Theorem fill_unanswerable_when_padded (id sentence correctAnswer : string)
    (typed : string) :
  trim correctAnswer ≠ correctAnswer →
  isQuestionCorrect (FillBlank id sentence correctAnswer) (AnsString typed)
  = Ok false ∧
  fill_view_isCorrect (Some typed) correctAnswer = false.
Proof.
  intros Hpad. simpl.
  rewrite bool_decide_eq_false_2; [done|].
  intros Heq%trimmed_of_match. done.
Qed.

Lemma fill_unanswerable_when_padded_witness :
  isQuestionCorrect (FillBlank "fill-0" "To _____ is human." "err ")
    (AnsString "err ") = Ok false.
Proof.
  refine (proj1 (fill_unanswerable_when_padded "fill-0" "To _____ is human."
                   "err " "err " _)).
  vm_compute. discriminate.
Defined.

(** X4. A written answer is marked correct exactly when it has a
    character that is not white space; the model answer and the prompt do
    not enter into it. The view shows the verdict of the grader. *)
Theorem written_correct_iff_not_blank (id prompt modelAnswer typed : string) :
  isQuestionCorrect (Written id prompt modelAnswer) (AnsString typed)
  = Ok (written_view_isCorrect (Some typed)) ∧
  (written_view_isCorrect (Some typed) = true
   ↔ ∃ c, c ∈ list_ascii_of_string typed ∧ is_space c = false).
Proof.
  split; [done|]. simpl.
  rewrite andb_true_iff, !bool_decide_eq_true, trim_blank. unfold blank.
  split.
  - intros [_ Hnb]. apply not_Forall_Exists in Hnb; [|intros c; apply _].
    apply Exists_exists in Hnb as (c & Hc & Hs). exists c. split; [done|].
    simpl in Hs. by apply not_true_is_false.
  - intros (c & Hc & Hs).
    assert (¬ Forall (λ c, is_space c = true) (list_ascii_of_string typed))
      as Hnb.
    { intros Hall. rewrite Forall_forall in Hall. specialize (Hall c Hc).
      congruence. }
    split; [|done]. intros ->. apply Hnb. constructor.
Qed.

(** ** The quiz session and its results screen *)

Lemma wrong_terms_elem qs verdicts t : t ∈ wrong_terms qs verdicts → t ∈ qs.
Proof.
  unfold wrong_terms. intros ([t' v] & -> & Hin)%list_elem_of_fmap.
  apply list_elem_of_filter in Hin as [_ Hin]. simpl.
  by apply elem_of_zip_l in Hin.
Qed.

Lemma wrong_terms_empty qs verdicts :
  length verdicts = length qs →
  wrong_terms qs verdicts = [] ↔ Forall (λ v, v = true) verdicts.
Proof.
  revert verdicts. induction qs as [|t qs IH]; intros [|v verdicts] Hlen;
    simpl in Hlen; try lia.
  { by rewrite wrong_terms_nil. }
  rewrite wrong_terms_cons, list.Forall_cons, <- IH by lia.
  destruct v; simpl; [naive_solver|]. split; [done|]. by intros [? _].
Qed.

(** What a complete run from a new quiz leaves. *)
Lemma complete_run quizType questions g verdicts :
  questions ≠ [] →
  length verdicts = length questions →
  ∃ st,
    play quizType verdicts (openQuiz questions g).1
    = Some (st, [QuizComplete quizType (results_score st)
                   (Z.of_nat (length questions))]) ∧
    gameState st = results ∧
    length (shuffledQuestions st) = length questions ∧
    NoDup (term <$> wrongAnswers st) ∧
    length (wrongAnswers st) ≤ length questions ∧
    (∀ t, t ∈ wrongAnswers st →
          t ∈ wrong_terms (shuffleArray questions g).1 verdicts) ∧
    (wrongAnswers st = [] ↔ Forall (λ v, v = true) verdicts).
Proof.
  intros Hne Hlen. unfold openQuiz.
  destruct (shuffleArray questions g) as [shuffled g'] eqn:Hs. simpl.
  apply shuffleArray_result in Hs as [Hperm Hl].
  set (st0 := {| gameState := playing; currentIndex := 0; wrongAnswers := [];
                 shuffledQuestions := shuffled |}).
  destruct (play_to_end quizType verdicts st0)
    as (st & Hplay & Hres & Hq & Hnd & Hset & Hfrom).
  { destruct verdicts; [|done]. destruct questions; simpl in *; done. }
  { simpl. lia. }
  { simpl. apply NoDup_nil_2. }
  simpl in Hplay, Hset, Hfrom, Hq. rewrite drop_0 in Hset, Hfrom.
  assert (∀ t, t ∈ wrongAnswers st → t ∈ wrong_terms shuffled verdicts) as Hin.
  { intros t [[]%elem_of_nil|?]%Hfrom. done. }
  exists st. split_and!; auto.
  - rewrite Hplay. unfold results_score. by rewrite Hq, Hl.
  - by rewrite Hq.
  - rewrite <- Hl, <- (length_fmap term (wrongAnswers st)),
      <- (length_fmap term shuffled).
    apply submseteq_length, NoDup_submseteq; [done|].
    intros x (t & -> & Ht)%list_elem_of_fmap.
    apply list_elem_of_fmap_2. by eapply wrong_terms_elem, Hin.
  - rewrite <- (wrong_terms_empty shuffled) by lia. split.
    + intros Hnil. rewrite Hnil in Hset. simpl in Hset.
      destruct (wrong_terms shuffled verdicts) as [|t ts]; [done|].
      exfalso. simpl in Hset. set_solver.
    + intros Hnil. rewrite Hnil in Hin.
      destruct (wrongAnswers st) as [|t ts]; [done|].
      specialize (Hin t (list_elem_of_here _ _)). by apply elem_of_nil in Hin.
Qed.

(** X5. The score handed to the completion callback is the score the
    results screen then shows. It lies between 0 and the number of
    questions, and is the number of questions exactly when every answer
    was correct. *)
Theorem score_reported_is_score_shown (quizType : PracticeType)
    (questions : list TermData) (g : RNG) (verdicts : list bool) :
  questions ≠ [] →
  length verdicts = length questions →
  ∃ st score,
    play quizType verdicts (openQuiz questions g).1
    = Some (st, [QuizComplete quizType score (Z.of_nat (length questions))]) ∧
    gameState st = results ∧
    results_score st = score ∧
    (0 ≤ score ≤ Z.of_nat (length questions))%Z ∧
    (score = Z.of_nat (length questions) ↔ Forall (λ v, v = true) verdicts).
Proof.
  intros Hne Hlen.
  destruct (complete_run quizType questions g verdicts Hne Hlen)
    as (st & Hplay & Hres & Hq & _ & Hle & _ & Hall).
  exists st, (results_score st). split_and!; auto.
  - unfold results_score. lia.
  - unfold results_score. lia.
  - rewrite <- Hall. unfold results_score. rewrite Hq.
    destruct (wrongAnswers st); simpl; split; (done || lia).
Qed.

Lemma score_reported_is_score_shown_witness :
  ∃ st score,
    play meaningMatch [true; false; true; false]
      (openQuiz four_terms sample_rng).1
    = Some (st, [QuizComplete meaningMatch score 4]) ∧
    results_score st = score.
Proof.
  destruct (score_reported_is_score_shown meaningMatch four_terms sample_rng
              [true; false; true; false])
    as (st & score & Hplay & _ & Hscore & _); [done|done|].
  by exists st, score.
Defined.

(** X6. After a complete run with a wrong answer, the redeem action
    starts a run that has a current question, whose questions have
    pairwise different texts, were all answered wrongly, and number the
    total less the score of the run before. *)
Theorem redeem_run_after_quiz (quizType : PracticeType)
    (questions : list TermData) (g g2 : RNG) (verdicts : list bool) :
  questions ≠ [] →
  length verdicts = length questions →
  false ∈ verdicts →
  ∃ st score st2 g3,
    play quizType verdicts (openQuiz questions g).1
    = Some (st, [QuizComplete quizType score (Z.of_nat (length questions))]) ∧
    redeem st g2 = (st2, g3) ∧
    gameState st2 = playing ∧
    currentIndex st2 = 0 ∧
    wrongAnswers st2 = [] ∧
    NoDup (term <$> shuffledQuestions st2) ∧
    Z.of_nat (length (shuffledQuestions st2))
    = (Z.of_nat (length questions) - score)%Z ∧
    (∀ isCorrect, is_Some (handleNextQuestion quizType isCorrect st2)) ∧
    (∀ t, t ∈ shuffledQuestions st2 →
          t ∈ wrong_terms (shuffleArray questions g).1 verdicts).
Proof.
  intros Hne Hlen Hfalse.
  destruct (complete_run quizType questions g verdicts Hne Hlen)
    as (st & Hplay & Hres & Hq & Hnd & Hle & Hin & Hall).
  assert (wrongAnswers st ≠ []) as Hwrong.
  { intros Hnil%Hall. rewrite Forall_forall in Hnil.
    by specialize (Hnil false Hfalse). }
  assert (0 < length (wrongAnswers st)) as Hpos
    by (destruct (wrongAnswers st); simpl; [done|lia]).
  assert (redeem st g2 = handleRedeem st g2) as Hredeem.
  { unfold redeem, redeem_button. rewrite Hres.
    by rewrite !bool_decide_eq_true_2 by done. }
  unfold handleRedeem in Hredeem.
  destruct (shuffleArray (wrongAnswers st) g2) as [shuffled g3] eqn:Hs.
  apply shuffleArray_result in Hs as [Hperm Hl].
  eexists st, (results_score st), _, g3.
  split_and!; [done|exact Hredeem|done|done|done|..]; simpl.
  - by rewrite Hperm.
  - unfold results_score. rewrite Hl, Hq. lia.
  - intros isCorrect. unfold handleNextQuestion. simpl.
    destruct shuffled as [|t ts]; [simpl in Hl; lia|]. simpl.
    by case_bool_decide.
  - intros t Ht. apply Hin. by rewrite <- Hperm.
Qed.

Lemma redeem_run_after_quiz_witness :
  ∃ st score st2 g3,
    play meaningMatch [true; false; true; false]
      (openQuiz four_terms sample_rng).1
    = Some (st, [QuizComplete meaningMatch score 4]) ∧
    redeem st sample_rng = (st2, g3) ∧
    Z.of_nat (length (shuffledQuestions st2)) = (4 - score)%Z.
Proof.
  destruct (redeem_run_after_quiz meaningMatch four_terms sample_rng sample_rng
              [true; false; true; false])
    as (st & score & st2 & g3 & Hplay & Hredeem & _ & _ & _ & _ & Hlen & _);
    [done|done| |].
  - compute_done.
  - by exists st, score, st2, g3.
Defined.

(** ** The multiple-choice quiz *)



(** ** The quiz history *)

Lemma slice_last_length {A} n (l : list A) :
  length (slice_last n l) = Nat.min n (length l).
Proof. unfold slice_last. rewrite length_drop. lia. Qed.

Lemma slice_last_app {A} n (l k : list A) :
  slice_last n (slice_last n l ++ k) = slice_last n (l ++ k).
Proof.
  unfold slice_last. rewrite !length_app, length_drop.
  destruct (decide (length l ≤ n)) as [Hle|Hgt].
  - replace (length l - n) with 0 by lia. rewrite drop_0. f_equal. lia.
  - rewrite !drop_app, drop_drop, length_drop. f_equal; f_equal; lia.
Qed.

Lemma log_events_cons (stored : option (list QuizAttempt)) e events :
  log_events stored (e :: events)
  = Some (slice_last 50 (default [] stored ++ attempts_of (e :: events))).
Proof.
  revert stored e. induction events as [|e' events IH]; intros stored e.
  { by destruct e as [now [quizType score total]]. }
  destruct e as [now [quizType score total]].
  change (log_events stored ((now, QuizComplete quizType score total)
                             :: e' :: events))
    with (log_events
            (Some (handleQuizComplete stored now quizType score total))
            (e' :: events)).
  rewrite IH. cbn [default from_option id]. unfold handleQuizComplete.
  cbv zeta. unfold id.
  rewrite slice_last_app, <- app_assoc. done.
Qed.

(** X8. A completed quiz is appended to the stored history, of which the
    50 latest attempts are kept: the new history is the end of the old one
    followed by the new attempt, which comes last; nothing is dropped
    while fewer than 50 attempts are stored, and the oldest one is dropped
    from then on. *)
Theorem quiz_history_keeps_latest_50 (historyJSON : option (list QuizAttempt))
    (now : Z) (quizType : PracticeType) (score total : Z) :
  length (handleQuizComplete historyJSON now quizType score total)
  = Nat.min 50 (length (default [] historyJSON) + 1) ∧
  last (handleQuizComplete historyJSON now quizType score total)
  = Some {| attempt_timestamp := now; attempt_quizType := quizType;
            attempt_score := score; attempt_total := total |} ∧
  handleQuizComplete historyJSON now quizType score total
    `suffix_of` default [] historyJSON
                ++ [{| attempt_timestamp := now; attempt_quizType := quizType;
                       attempt_score := score; attempt_total := total |}] ∧
  (length (default [] historyJSON) < 50 →
   handleQuizComplete historyJSON now quizType score total
   = default [] historyJSON
     ++ [{| attempt_timestamp := now; attempt_quizType := quizType;
            attempt_score := score; attempt_total := total |}]) ∧
  (50 ≤ length (default [] historyJSON) →
   handleQuizComplete historyJSON now quizType score total
   = drop (length (default [] historyJSON) - 49) (default [] historyJSON)
     ++ [{| attempt_timestamp := now; attempt_quizType := quizType;
            attempt_score := score; attempt_total := total |}]).
Proof.
  unfold handleQuizComplete. cbv zeta.
  generalize (default [] historyJSON). intros history.
  set (newAttempt := {| attempt_timestamp := now |}).
  split_and!.
  - by rewrite slice_last_length, length_app.
  - unfold slice_last. rewrite length_app. simpl.
    rewrite drop_app_le by lia. by rewrite last_snoc.
  - apply suffix_drop.
  - intros Hlt. unfold slice_last. rewrite length_app. simpl.
    by replace (length history + 1 - 50) with 0 by lia.
  - intros Hge. unfold slice_last. rewrite length_app. simpl.
    rewrite drop_app_le by lia. do 2 f_equal. lia.
Qed.

(** X9. However many quizzes are completed, the stored history is the
    latest 50 of the attempts stored before followed by the new ones, in
    the order of their completion. *)
Theorem quiz_history_after_session (stored : option (list QuizAttempt))
    (events : list (Z * Event)) :
  events ≠ [] →
  log_events stored events
  = Some (slice_last 50 (default [] stored ++ attempts_of events)) ∧
  length (default [] (log_events stored events)) ≤ 50.
Proof.
  intros Hne. destruct events as [|e events]; [done|].
  rewrite log_events_cons. split; [done|].
  cbn [default from_option]. unfold id. rewrite slice_last_length. lia.
Qed.

Lemma quiz_history_after_session_witness :
  log_events None [(1%Z, QuizComplete meaningMatch 2 4);
                   (2%Z, QuizComplete spellingBee 1 1)]
  = Some [ {| attempt_timestamp := 1; attempt_quizType := meaningMatch;
              attempt_score := 2; attempt_total := 4 |};
           {| attempt_timestamp := 2; attempt_quizType := spellingBee;
              attempt_score := 1; attempt_total := 1 |} ].
Proof.
  refine (proj1 (quiz_history_after_session None
                   [(1%Z, QuizComplete meaningMatch 2 4);
                    (2%Z, QuizComplete spellingBee 1 1)] _)).
  discriminate.
Defined.

(** ** The library *)

Lemma lookup_foldl_delete (lib : gmap string TermData) (keys : list string)
    (key : string) :
  foldl (λ newLibrary k, delete k newLibrary) lib keys !! key
  = if decide (key ∈ keys) then None else lib !! key.
Proof.
  revert lib. induction keys as [|k keys IH]; intros lib; simpl.
  { destruct (decide (key ∈ [])) as [[]%elem_of_nil|]; done. }
  rewrite IH.
  destruct (decide (key ∈ k :: keys)) as [Hin|Hout],
    (decide (key ∈ keys)) as [Hin'|Hout']; try done.
  - apply elem_of_cons in Hin as [->|?]; [|done]. apply lookup_delete_eq.
  - destruct Hout. by right.
  - apply lookup_delete_ne. intros ->. apply Hout, list_elem_of_here.
Qed.

(** X10. An update of a term keeps the keys of the library exactly when
    the library has the lower-case text of the term, or that text is no
    property name of [Object.prototype]; a term called "constructor" is
    added to a library that does not have it. Every other entry is left as
    it is, the entry of the term is the updated term wherever there is
    one, the keys stay the lower-case texts of their entries, and the
    results keep their length and, position by position, their lower-case
    texts. *)
Theorem updateTermData_keeps_keys (updatedTerm : TermData) (st : AppState) :
  (dom (app_library (updateTermData updatedTerm st)) = dom (app_library st)
   ↔ is_Some (app_library st !! toLowerCase (term updatedTerm))
     ∨ toLowerCase (term updatedTerm) ∉ Object_prototype) ∧
  (∀ key, key ≠ toLowerCase (term updatedTerm) →
     app_library (updateTermData updatedTerm st) !! key
     = app_library st !! key) ∧
  (∀ t, app_library (updateTermData updatedTerm st)
          !! toLowerCase (term updatedTerm) = Some t →
        t = updatedTerm) ∧
  (keyed_by_term (app_library st) →
   keyed_by_term (app_library (updateTermData updatedTerm st))) ∧
  (toLowerCase ∘ term) <$> app_results (updateTermData updatedTerm st)
  = (toLowerCase ∘ term) <$> app_results st.
Proof.
  unfold updateTermData, library_has. cbv zeta. cbn [app_library app_results].
  set (termKey := toLowerCase (term updatedTerm)).
  set (lib := app_library st).
  split_and!.
  - destruct (decide (is_Some (lib !! termKey))) as [Hsome|Hnone].
    { rewrite bool_decide_eq_true_2 by done. simpl. split; [by left|].
      intros _. by apply dom_insert_lookup_L. }
    rewrite bool_decide_eq_false_2 by done. simpl.
    case_bool_decide as Hproto.
    + split; [|by intros [?|?]]. intros Hdom. exfalso. apply Hnone.
      apply elem_of_dom. rewrite <- Hdom, dom_insert_L. set_solver.
    + split; [by right|done].
  - intros key Hne.
    destruct (_ || _); [|done]. by rewrite lookup_insert_ne.
  - intros t. destruct (decide (is_Some (lib !! termKey))) as [Hsome|Hnone].
    { rewrite bool_decide_eq_true_2 by done. simpl.
      rewrite lookup_insert_eq. congruence. }
    rewrite bool_decide_eq_false_2 by done. simpl.
    case_bool_decide as Hproto.
    + rewrite lookup_insert_eq. congruence.
    + intros Ht. destruct Hnone. eauto.
  - intros Hkeyed. destruct (_ || _); [|done].
    intros key t. destruct (decide (key = termKey)) as [->|Hne].
    + rewrite lookup_insert_eq. by intros [= <-].
    + rewrite lookup_insert_ne by done. apply Hkeyed.
  - rewrite <- list_fmap_compose. apply list_fmap_ext.
    intros i r _. simpl. by case_bool_decide.
Qed.

(** X11. A term deleted from the library is not brought back by an
    update that arrives after the deletion, as that of a detail request
    still in flight: the update changes neither the library nor the
    results. *)
Theorem deleted_term_is_not_restored (termKeys : list string)
    (updatedTerm : TermData) (st : AppState) :
  toLowerCase (term updatedTerm) ∈ termKeys →
  toLowerCase (term updatedTerm) ∉ Object_prototype →
  updateTermData updatedTerm (confirmDelete termKeys st)
  = confirmDelete termKeys st.
Proof.
  intros Hin Hproto. unfold updateTermData, library_has. cbv zeta.
  cbn [confirmDelete app_library app_results].
  rewrite lookup_foldl_delete, decide_True by done.
  rewrite (bool_decide_eq_false_2 (is_Some None)) by (by intros [? ?]).
  rewrite bool_decide_eq_false_2 by done. simpl.
  unfold confirmDelete. f_equal.
  transitivity (id <$> filter (λ r, toLowerCase (term r) ∉ termKeys)
                         (app_results st)); [|apply list_fmap_id].
  apply list_fmap_ext. intros i r Hr%list_elem_of_lookup_2.
  apply list_elem_of_filter in Hr as [Hout _].
  rewrite bool_decide_eq_false_2; [done|]. intros Heq. by rewrite Heq in Hout.
Qed.

Lemma deleted_term_is_not_restored_witness :
  updateTermData brisk_again
    (confirmDelete ["brisk"]
       {| app_results := [brisk; candid];
          app_library := {[ "brisk" := brisk; "candid" := candid ]} |})
  = confirmDelete ["brisk"]
      {| app_results := [brisk; candid];
         app_library := {[ "brisk" := brisk; "candid" := candid ]} |}.
Proof.
  apply (deleted_term_is_not_restored ["brisk"] brisk_again).
  - vm_compute. apply list_elem_of_here.
  - vm_compute. intros H. repeat (apply elem_of_cons in H as [H|H]; [discriminate|]).
    by apply elem_of_nil in H.
Defined.

(** ** The practice hub *)

Lemma filter_length_le {A} (f : A → bool) (l : list A) :
  length (List.filter f l) ≤ length l.
Proof. induction l as [|x l IH]; simpl; [done|]. destruct (f x); simpl; lia. Qed.

Lemma PRACTICE_OPTIONS_minRequired two_collocations opt :
  opt ∈ PRACTICE_OPTIONS two_collocations → 1 ≤ minRequired opt.
Proof.
  unfold PRACTICE_OPTIONS. rewrite !elem_of_cons, elem_of_nil.
  intros [->|[->|[->|[->|[->|[->|[->|[->|[]]]]]]]]]; simpl; lia.
Qed.

(** X12. A click on an option of the practice hub starts a quiz exactly
    when at least the required number of the selected terms pass the data
    check of the option, and warns otherwise. The quiz gets the option's
    type, the pool unchanged, and for questions the terms that pass, in the
    order of the selection; there is at least one, so that the quiz opens
    on a question. *)
Theorem practice_starts_with_enough_valid_terms
    (two_collocations : TermData → bool) (selectedTerms allTerms : list TermData)
    (opt : PracticeOption) :
  opt ∈ PRACTICE_OPTIONS two_collocations →
  (minRequired opt ≤ length (List.filter (dataCheck opt) selectedTerms) →
   handleStart selectedTerms allTerms opt
   = StartQuiz (option_id opt) (List.filter (dataCheck opt) selectedTerms)
       allTerms ∧
   List.filter (dataCheck opt) selectedTerms ≠ [] ∧
   ∀ g isCorrect,
     is_Some (handleNextQuestion (option_id opt) isCorrect
                (openQuiz (List.filter (dataCheck opt) selectedTerms) g).1)) ∧
  (length (List.filter (dataCheck opt) selectedTerms) < minRequired opt →
   ∃ message, handleStart selectedTerms allTerms opt = Warn message).
Proof.
  intros Hopt%PRACTICE_OPTIONS_minRequired.
  pose proof (filter_length_le (dataCheck opt) selectedTerms) as Hle.
  unfold handleStart. cbv zeta. split.
  - intros Hmin. rewrite !bool_decide_eq_false_2 by lia. split_and!; [done| |].
    + intros Hnil. rewrite Hnil in Hmin. simpl in Hmin. lia.
    + intros g isCorrect. unfold openQuiz.
      destruct (shuffleArray _ g) as [shuffled g'] eqn:Hs.
      apply shuffleArray_result in Hs as [_ Hl].
      unfold handleNextQuestion. simpl.
      destruct shuffled as [|t ts]; [simpl in Hl; lia|]. simpl.
      by case_bool_decide.
  - intros Hfew. case_bool_decide; [eauto|].
    rewrite bool_decide_eq_true_2 by lia. eauto.
Qed.

Lemma practice_starts_with_enough_valid_terms_witness :
  handleStart [brisk; ambiguous; candid] four_terms
    {| option_id := sentence; minRequired := 2; dataCheck := has_examples;
       warning := "Need at least 2 terms with example sentences." |}
  = StartQuiz sentence [ambiguous; candid] four_terms.
Proof.
  refine (proj1 (proj1 (practice_starts_with_enough_valid_terms (λ _, false)
                          [brisk; ambiguous; candid] four_terms
                          {| option_id := sentence; minRequired := 2;
                             dataCheck := has_examples;
                             warning := "Need at least 2 terms with example sentences." |}
                          _) _)).
  - unfold PRACTICE_OPTIONS. do 5 apply list_elem_of_further.
    apply list_elem_of_here.
  - vm_compute. lia.
Defined.

(** ** The sentence scramble *)

Lemma split_spaces_nonempty s : split_spaces s ≠ [].
Proof.
  destruct s as [|c s]; simpl; [done|].
  case_bool_decide; [done|]. by destruct (split_spaces s).
Qed.

Lemma join_cons w ws :
  ws ≠ [] → join_spaces (w :: ws) = w +:+ " " +:+ join_spaces ws.
Proof. by destruct ws. Qed.

(** Joining the words of a sentence gives the sentence back. *)
Lemma join_split s : join_spaces (split_spaces s) = s.
Proof.
  induction s as [|c s IH]; [done|]. cbn [split_spaces].
  pose proof (split_spaces_nonempty s) as Hne.
  case_bool_decide as Hc.
  - rewrite join_cons by done. rewrite IH. by subst.
  - destruct (split_spaces s) as [|w ws]; [done|].
    destruct ws as [|w' ws].
    + simpl in *. by rewrite IH.
    + rewrite join_cons by done. rewrite join_cons in IH by done.
      simpl. by rewrite <- IH.
Qed.

Lemma split_spaces_no_space s :
  Forall (λ w, " "%char ∉ list_ascii_of_string w) (split_spaces s).
Proof.
  induction s as [|c s IH]; simpl.
  { repeat constructor. simpl. apply not_elem_of_nil. }
  case_bool_decide as Hc.
  - constructor; [apply not_elem_of_nil|done].
  - destruct (split_spaces s) as [|w ws].
    + repeat constructor. simpl. rewrite not_elem_of_cons. split; [done|].
      apply not_elem_of_nil.
    + apply list.Forall_cons in IH as [Hw Hws]. constructor; [|done].
      simpl. rewrite not_elem_of_cons. by split.
Qed.

Lemma split_word w :
  " "%char ∉ list_ascii_of_string w → split_spaces w = [w].
Proof.
  induction w as [|c w IH]; simpl; [done|].
  rewrite not_elem_of_cons. intros [Hc Hw].
  rewrite bool_decide_eq_false_2 by done. by rewrite IH.
Qed.

Lemma split_word_space w s :
  " "%char ∉ list_ascii_of_string w →
  split_spaces (w +:+ " " +:+ s) = w :: split_spaces s.
Proof.
  induction w as [|c w IH]; simpl; [done|].
  rewrite not_elem_of_cons. intros [Hc Hw].
  rewrite bool_decide_eq_false_2 by done. by rewrite IH.
Qed.

(** Splitting what was joined gives the words back, when there is a word
    and no word has a space. *)
Lemma split_join ws :
  ws ≠ [] →
  Forall (λ w, " "%char ∉ list_ascii_of_string w) ws →
  split_spaces (join_spaces ws) = ws.
Proof.
  induction ws as [|w ws IH]; [done|]. intros _ [Hw Hws]%list.Forall_cons.
  destruct ws as [|w' ws].
  - by apply split_word.
  - rewrite join_cons by done. rewrite split_word_space by done.
    by rewrite IH.
Qed.

Lemma imap_pair_snd {A} (f : nat → nat) (l : list A) :
  (imap (λ j, pair (f j)) l).*2 = l.
Proof.
  revert f. induction l as [|x l IH]; intros f; [done|].
  rewrite imap_cons. cbn [fmap list_fmap snd]. f_equal. apply (IH (f ∘ S)).
Qed.

Lemma imap_pair_fst {A} (f : nat → nat) (l : list A) p :
  p ∈ imap (λ j, pair (f j)) l → ∃ j, p.1 = f j.
Proof.
  intros [i Hi]%list_elem_of_lookup_1. rewrite list_lookup_imap in Hi.
  destruct (l !! i); simpl in Hi; [|done]. injection Hi as <-. by exists i.
Qed.

Lemma remove_at_inj {A} (f : nat → nat) (index : nat) (prev : list A) :
  (∀ i j, f i = f j → i = j) →
  (filter (λ p, p.1 ≠ f index) (imap (λ j, pair (f j)) prev)).*2
  = delete index prev.
Proof.
  revert f index. induction prev as [|x prev IH]; intros f index Hinj; [done|].
  rewrite imap_cons. destruct index as [|index].
  - rewrite filter_cons_False by (simpl; auto). cbn [delete list_delete].
    rewrite filter_all; [apply (imap_pair_snd (f ∘ S))|].
    apply Forall_forall. intros p [j Hj]%(imap_pair_fst (f ∘ S)).
    rewrite Hj. simpl. intros Heq%Hinj. done.
  - rewrite filter_cons_True by (simpl; intros Heq%Hinj; done).
    cbn [fmap list_fmap snd delete list_delete]. f_equal.
    apply (IH (f ∘ S) index). intros i j Heq%Hinj. by injection Heq.
Qed.

(** The filter on positions removes the element at the position. *)
Lemma remove_at_delete {A} (index : nat) (prev : list A) :
  remove_at index prev = delete index prev.
Proof. apply (remove_at_inj id index prev). auto. Qed.

Lemma scramble_clicks_cons question c cs st :
  scramble_clicks question (c :: cs) st
  = scramble_clicks question cs (scramble_click question c st).1.
Proof. done. Qed.

(** A click moves one tile from one row to the other, or none. *)
Lemma scramble_click_conserves question c st :
  sc_userAnswer (scramble_click question c st).1
    ++ sc_scrambled (scramble_click question c st).1
  ≡ₚ sc_userAnswer st ++ sc_scrambled st.
Proof.
  destruct c as [i|i|]; simpl.
  - destruct (sc_scrambled st !! i) as [word|] eqn:Hi; [|done]. simpl.
    destruct (sc_answered st); [done|]. simpl.
    rewrite remove_at_delete, <- app_assoc. f_equiv. simpl.
    by rewrite <- delete_Permutation.
  - destruct (sc_userAnswer st !! i) as [word|] eqn:Hi; [|done]. simpl.
    destruct (sc_answered st); [done|]. simpl.
    rewrite remove_at_delete.
    etrans; [|apply Permutation_app_tail; symmetry;
              apply (delete_Permutation _ i word Hi)].
    rewrite (Permutation_app_comm (sc_scrambled st) [word]). simpl.
    symmetry. apply Permutation_middle.
  - by destruct (sc_answered st).
Qed.

Lemma scramble_clicks_conserves question cs st :
  sc_userAnswer (scramble_clicks question cs st)
    ++ sc_scrambled (scramble_clicks question cs st)
  ≡ₚ sc_userAnswer st ++ sc_scrambled st.
Proof.
  revert st. induction cs as [|c cs IH]; intros st; [done|].
  rewrite scramble_clicks_cons, IH. apply scramble_click_conserves.
Qed.

Lemma openScramble_tiles question g :
  sc_userAnswer (openScramble question g).1 = [] ∧
  sc_answered (openScramble question g).1 = false ∧
  sc_scrambled (openScramble question g).1 ≡ₚ originalWords question.
Proof.
  unfold openScramble.
  destruct (shuffleArray _ g) as [shuffled g'] eqn:Hs.
  by apply shuffleArray_result in Hs as [Hperm _].
Qed.

(** X13. Whatever is clicked, the tiles of the two rows together are
    those of the sentence: the words of its first example, each as often
    as it occurs there. No tile is lost or made. *)
Theorem scramble_tiles_conserved (question : TermData) (g : RNG)
    (clicks : list ScrambleClick) :
  sc_userAnswer (scramble_clicks question clicks (openScramble question g).1)
    ++ sc_scrambled (scramble_clicks question clicks (openScramble question g).1)
  ≡ₚ originalWords question.
Proof.
  rewrite scramble_clicks_conserves.
  destruct (openScramble_tiles question g) as (-> & _ & ->). done.
Qed.



(** X15. An arrangement reached by clicks is judged correct exactly when
    the upper row has the words of the sentence in their order; or is
    empty, for a term without a first example, whose sentence is the empty
    string. *)
Theorem scramble_correct_iff_in_order (question : TermData) (g : RNG)
    (clicks : list ScrambleClick) :
  scramble_isCorrect question
    (scramble_clicks question clicks (openScramble question g).1) = true
  ↔ sc_userAnswer (scramble_clicks question clicks (openScramble question g).1)
    = originalWords question
    ∨ (sc_userAnswer (scramble_clicks question clicks (openScramble question g).1)
       = []
       ∧ originalSentence question = EmptyString).
Proof.
  pose proof (scramble_clicks_conserves question clicks
                (openScramble question g).1) as Hall.
  destruct (openScramble_tiles question g) as (Hua0 & _ & Hperm).
  rewrite Hua0, Hperm in Hall. simpl in Hall.
  set (st := scramble_clicks _ _ _) in *.
  unfold scramble_isCorrect. rewrite bool_decide_eq_true. split.
  - intros Hjoin. destruct (sc_userAnswer st) as [|w ws] eqn:Hua.
    { right. by split. }
    left. unfold originalWords. rewrite <- Hjoin. symmetry.
    apply split_join; [done|].
    apply Forall_forall. intros w' Hw'.
    pose proof (split_spaces_no_space (originalSentence question)) as Hns.
    rewrite Forall_forall in Hns. apply Hns.
    fold (originalWords question). rewrite <- Hall.
    apply elem_of_app. by left.
  - intros [->|[-> ->]]; [apply join_split|done].
Qed.

(** ** The collocation quiz *)

Lemma new_Map_snoc entries e :
  new_Map (entries ++ [e]) = <[e.1:=e.2]> (new_Map entries).
Proof. unfold new_Map. by rewrite foldl_snoc. Qed.

Lemma new_Map_dom entries k :
  is_Some (new_Map entries !! k) → k ∈ entries.*1.
Proof.
  induction entries as [|e entries IH] using rev_ind.
  { unfold new_Map. simpl. rewrite lookup_empty. by intros [? ?]. }
  rewrite new_Map_snoc, fmap_app, elem_of_app.
  destruct (decide (e.1 = k)) as [<-|Hne].
  - intros _. right. apply list_elem_of_here.
  - rewrite lookup_insert_ne by done. auto.
Qed.

(** With keys that differ, the map has exactly the entries of the list. *)
Lemma new_Map_NoDup entries :
  NoDup entries.*1 →
  size (new_Map entries) = length entries ∧
  ∀ k v, new_Map entries !! k = Some v ↔ (k, v) ∈ entries.
Proof.
  induction entries as [|[k0 v0] entries IH] using rev_ind.
  { intros _. split; [done|]. intros k v. unfold new_Map. simpl.
    rewrite lookup_empty, elem_of_nil. done. }
  rewrite fmap_app. intros (Hnd & Hnew & _)%NoDup_app.
  destruct (IH Hnd) as [Hsize Hentries].
  assert (new_Map entries !! k0 = None) as Hnone.
  { apply eq_None_not_Some. intros Hin%new_Map_dom.
    apply (Hnew k0 Hin), list_elem_of_here. }
  rewrite new_Map_snoc. simpl. split.
  - rewrite map_size_insert_None by done. rewrite length_app. simpl. lia.
  - intros k v. rewrite elem_of_app, list_elem_of_singleton.
    destruct (decide (k0 = k)) as [<-|Hne].
    + rewrite lookup_insert_eq. split.
      * intros [= <-]. by right.
      * intros [Hin%Hentries|[= <-]]; [congruence|done].
    + rewrite lookup_insert_ne by done. rewrite Hentries.
      split; [by left|]. intros [?|[= ? ?]]; [done|congruence].
Qed.

Lemma size_list_to_set_le (l : list string) :
  size (list_to_set l : gset string) ≤ length l.
Proof.
  induction l as [|x l IH].
  { by rewrite list_to_set_nil, size_empty. }
  rewrite list_to_set_cons, size_union_alt, size_singleton.
  assert (size (list_to_set l ∖ {[x]} : gset string)
          ≤ size (list_to_set l : gset string))
    by (apply subseteq_size; set_solver).
  simpl. lia.
Qed.

Lemma size_list_to_set_NoDup (l : list string) :
  size (list_to_set l : gset string) = length l → NoDup l.
Proof.
  induction l as [|x l IH]; [constructor|].
  rewrite list_to_set_cons. simpl. intros Hsize.
  pose proof (size_list_to_set_le l) as Hle.
  destruct (decide (x ∈ l)) as [Hin|Hout].
  - assert ({[x]} ∪ list_to_set l = (list_to_set l : gset string)) as Heq
      by set_solver.
    rewrite Heq in Hsize. lia.
  - rewrite size_union in Hsize by set_solver.
    rewrite size_singleton in Hsize. constructor; [done|]. apply IH. lia.
Qed.

(** The selects record their values under phrases of the quiz. *)
Lemma selected_keys quiz st :
  selected quiz st →
  co_answered st = false ∧
  dom (co_userAnswers st) ⊆ list_to_set (phrase <$> quizItems quiz).
Proof.
  induction 1 as [|st item meaning _ [IHa IHd] Hitem _]; simpl.
  { split; [done|]. set_solver. }
  split; [done|]. rewrite dom_insert.
  assert (phrase item ∈ phrase <$> quizItems quiz)
    by by apply list_elem_of_fmap_2.
  set_solver.
Qed.

Lemma collocationQuiz_unfold collocations g :
  ∃ shuffled g1 meanings g2,
    shuffleArray (default [] (flat_map items <$> collocations)) g
    = (shuffled, g1) ∧
    shuffleArray
      (phrase_meaning
         <$> take (Nat.min (length (default [] (flat_map items <$> collocations))) 4)
               shuffled) g1
    = (meanings, g2) ∧
    collocationQuiz collocations g
    = ({| quizItems :=
            take (Nat.min (length (default [] (flat_map items <$> collocations))) 4)
              shuffled;
          shuffledMeanings := meanings;
          correctMapping :=
            new_Map ((λ item, (phrase item, phrase_meaning item))
                     <$> take (Nat.min (length (default []
                                          (flat_map items <$> collocations))) 4)
                           shuffled) |}, g2).
Proof.
  unfold collocationQuiz. cbv zeta.
  destruct (shuffleArray (default [] _) g) as [shuffled g1] eqn:Hs.
  destruct (shuffleArray (phrase_meaning <$> _) g1) as [meanings g2] eqn:Hm.
  exists shuffled, g1, meanings, g2. split_and!; done.
Qed.

(** X16. The collocation quiz asks for up to four of the collocation
    items of the first meaning, all of them when there are four or fewer,
    each taken as often as it is there at most; the meanings on offer are
    those of the items asked for, in some order. The view shows its
    "not enough collocations" screen exactly when the term has fewer than
    two collocation items. *)
Theorem collocationQuiz_sample (collocations : option (list Collocation))
    (g : RNG) :
  quizItems (collocationQuiz collocations g).1
    ⊆+ default [] (flat_map items <$> collocations) ∧
  length (quizItems (collocationQuiz collocations g).1)
  = Nat.min (length (default [] (flat_map items <$> collocations))) 4 ∧
  shuffledMeanings (collocationQuiz collocations g).1
  ≡ₚ phrase_meaning <$> quizItems (collocationQuiz collocations g).1 ∧
  (length (quizItems (collocationQuiz collocations g).1) < 2
   ↔ length (default [] (flat_map items <$> collocations)) < 2).
Proof.
  destruct (collocationQuiz_unfold collocations g)
    as (shuffled & g1 & meanings & g2 & Hs & Hm & ->).
  apply shuffleArray_result in Hs as [Hperm Hl].
  apply shuffleArray_result in Hm as [Hperm' _].
  cbn [fst quizItems shuffledMeanings].
  assert (length (take (Nat.min (length (default []
                                   (flat_map items <$> collocations))) 4)
                    shuffled)
          = Nat.min (length (default [] (flat_map items <$> collocations))) 4)
    as Hlen by (rewrite length_take; lia).
  split_and!; [|done|done|lia].
  trans shuffled; [apply submseteq_take|by apply Permutation_submseteq].
Qed.

(** X17. Where two of the items asked for have the same phrase, their
    selects write to the same entry of the answers, which then never has
    as many entries as there are items: the "Check Answers" button stays
    disabled whatever is selected. *)
Theorem collocation_check_needs_distinct_phrases (quiz : CollocationQuiz)
    (st : CollocationState) :
  ¬ NoDup (phrase <$> quizItems quiz) →
  selected quiz st →
  check_enabled quiz st = false.
Proof.
  intros Hdup [_ Hdom]%selected_keys. unfold check_enabled.
  apply bool_decide_eq_false_2. intros Hsize. apply Hdup.
  apply size_list_to_set_NoDup.
  pose proof (size_list_to_set_le (phrase <$> quizItems quiz)) as Hle.
  apply subseteq_size in Hdom. rewrite size_dom in Hdom.
  rewrite length_fmap in *. lia.
Qed.

Lemma collocation_check_needs_distinct_phrases_witness :
  check_enabled
    {| quizItems := [ {| phrase := "take off"; phrase_meaning := "leave the ground";
                         phrase_example := "The plane took off." |};
                      {| phrase := "take off"; phrase_meaning := "remove";
                         phrase_example := "Take off your coat." |} ];
       shuffledMeanings := ["remove"; "leave the ground"];
       correctMapping := {[ "take off" := "remove" ]} |}
    (handleSelect "take off" "remove"
       {| co_userAnswers := ∅; co_answered := false |})
  = false.
Proof.
  apply collocation_check_needs_distinct_phrases.
  - simpl. intros Hnd. apply NoDup_cons in Hnd as [Hnotin _].
    apply Hnotin, list_elem_of_here.
  - apply (selected_more _ _
             {| phrase := "take off"; phrase_meaning := "remove";
                phrase_example := "Take off your coat." |} "remove").
    + apply selected_none.
    + cbn [quizItems]. apply list_elem_of_further, list_elem_of_here.
    + cbn [shuffledMeanings]. apply list_elem_of_here.
Defined.

(** X18. Where the items asked for have different phrases, the answers
    are judged all correct, once checked, exactly when they are the map
    from each phrase to its meaning that the memo computes. *)
Theorem collocation_all_correct_iff (collocations : option (list Collocation))
    (g : RNG) (userAnswers : gmap string string) :
  NoDup (phrase <$> quizItems (collocationQuiz collocations g).1) →
  allCorrect (collocationQuiz collocations g).1
    {| co_userAnswers := userAnswers; co_answered := true |} = true
  ↔ userAnswers = correctMapping (collocationQuiz collocations g).1.
Proof.
  destruct (collocationQuiz_unfold collocations g)
    as (shuffled & g1 & meanings & g2 & _ & _ & ->).
  cbn [fst quizItems correctMapping]. set (sampled := take _ shuffled).
  intros Hnd.
  destruct (new_Map_NoDup ((λ item, (phrase item, phrase_meaning item))
                           <$> sampled)) as [Hsize Hentries].
  { by rewrite <- list_fmap_compose. }
  rewrite length_fmap in Hsize.
  unfold allCorrect. cbn [co_answered co_userAnswers quizItems negb].
  split.
  - case_bool_decide as Hn; [|done]. cbn [negb]. intros Hall.
    rewrite forallb_forall in Hall. symmetry.
    apply map_subseteq_size_eq; [|lia].
    apply map_subseteq_spec. intros k v Hkv%Hentries.
    apply list_elem_of_fmap in Hkv as (item & [= -> ->] & Hitem).
    apply list_elem_of_In, Hall in Hitem. by apply bool_decide_eq_true_1 in Hitem.
  - intros ->. rewrite bool_decide_eq_true_2 by done. cbn [negb].
    apply forallb_forall. intros item Hitem%list_elem_of_In.
    apply bool_decide_eq_true_2, Hentries.
    by apply (list_elem_of_fmap_2 (λ item, (phrase item, phrase_meaning item))).
Qed.

Lemma collocation_all_correct_iff_witness :
  allCorrect
    (collocationQuiz
       (Some [ {| heading := "Verbs";
                  items := [ {| phrase := "take off";
                                phrase_meaning := "leave the ground";
                                phrase_example := "The plane took off." |};
                             {| phrase := "take up";
                                phrase_meaning := "begin a hobby";
                                phrase_example := "She took up chess." |} ] |} ])
       sample_rng).1
    {| co_userAnswers := {[ "take off" := "leave the ground";
                            "take up" := "begin a hobby" ]};
       co_answered := true |}
  = true.
Proof.
  apply collocation_all_correct_iff.
  - vm_compute. repeat constructor; rewrite ?elem_of_cons, ?elem_of_nil;
      intros H; repeat destruct H as [H|H]; discriminate || done.
  - vm_compute. reflexivity.
Defined.

(** ** The spelling quiz *)

Lemma lower_char_idempotent c : lower_char (lower_char c) = lower_char c.
Proof. by destruct c as [[] [] [] [] [] [] [] []]. Qed.

Lemma keyboard_letter c :
  c ∈ keyboard_letters → is_space c = false ∧ lower_char c = c.
Proof.
  revert c. apply Forall_forall. vm_compute. repeat constructor.
Qed.

Lemma chars_append s t :
  list_ascii_of_string (s +:+ t)
  = list_ascii_of_string s ++ list_ascii_of_string t.
Proof. induction s as [|c s IH]; simpl; [done|]. by rewrite IH. Qed.

Lemma chars_toLowerCase s :
  list_ascii_of_string (toLowerCase s) = lower_char <$> list_ascii_of_string s.
Proof. induction s as [|c s IH]; simpl; [done|]. by rewrite IH. Qed.

Lemma chars_drop_last s c :
  c ∈ list_ascii_of_string (drop_last s) → c ∈ list_ascii_of_string s.
Proof.
  induction s as [|c0 s IH]; [done|]. cbn [drop_last].
  destruct s as [|c' s]; [by intros ?%elem_of_nil|].
  cbn [list_ascii_of_string] in *. rewrite !(elem_of_cons _ c c0).
  intros [?|?]; auto.
Qed.

Lemma toLowerCase_fixed s :
  Forall (λ c, lower_char c = c) (list_ascii_of_string s) → toLowerCase s = s.
Proof.
  induction s as [|c s IH]; simpl; [done|].
  intros [Hc Hs]%list.Forall_cons. by rewrite Hc, IH.
Qed.

Lemma trim_fixed s :
  Forall (λ c, is_space c = false) (list_ascii_of_string s) → trim s = s.
Proof.
  intros Hs. unfold trim.
  assert (trimStart s = s) as ->.
  { destruct s as [|c s]; [done|]. apply list.Forall_cons in Hs as [Hc _].
    simpl. by rewrite Hc. }
  induction s as [|c s IH]; simpl; [done|].
  apply list.Forall_cons in Hs as [Hc Hs]. rewrite IH by done.
  destruct s; [by rewrite Hc|done].
Qed.

(** What the on-screen keyboard can type: letters of the keyboard only,
    and it never checks the answer. *)
Lemma press_all_letters keys :
  Forall on_screen_key keys →
  sp_answered (press_all keys) = false ∧
  Forall (λ c, c ∈ keyboard_letters)
    (list_ascii_of_string (sp_userInput (press_all keys))).
Proof.
  unfold press_all. induction keys as [|key keys IH] using rev_ind.
  { intros _. split; [done|constructor]. }
  rewrite Forall_app, Forall_singleton. intros [Hkeys Hkey].
  destruct (IH Hkeys) as [Hans Hletters].
  rewrite foldl_snoc. unfold handleKeyPress at 1 3. rewrite Hans.
  destruct Hkey as [Hkey|(c & Hc & Hkey)]; subst key.
  - rewrite bool_decide_eq_true_2 by done. split; [done|].
    cbn [sp_userInput]. apply Forall_forall. intros c Hc%chars_drop_last.
    rewrite Forall_forall in Hletters. auto.
  - rewrite bool_decide_eq_false_2 by discriminate. split; [done|].
    cbn [sp_userInput]. rewrite chars_append. apply Forall_app. split; [done|].
    by apply Forall_singleton.
Qed.

Lemma append_nil_r s : s +:+ EmptyString = s.
Proof.
  induction s as [|c s IH]; [done|].
  change (String c (s +:+ EmptyString) = String c s). by rewrite IH.
Qed.

Lemma append_snoc pre c w :
  (pre +:+ String c EmptyString) +:+ w = pre +:+ String c w.
Proof.
  induction pre as [|c' pre IH]; [done|].
  change (String c' ((pre +:+ String c EmptyString) +:+ w)
          = String c' (pre +:+ String c w)).
  by rewrite IH.
Qed.

Lemma press_letters pre w :
  foldl (λ st key, handleKeyPress key st)
    {| sp_userInput := pre; sp_answered := false |}
    ((λ c, String c EmptyString) <$> list_ascii_of_string w)
  = {| sp_userInput := pre +:+ w; sp_answered := false |}.
Proof.
  revert pre. induction w as [|c w IH]; intros pre;
    cbn [list_ascii_of_string fmap list_fmap foldl].
  { by rewrite append_nil_r. }
  unfold handleKeyPress at 2. cbn [sp_answered sp_userInput].
  rewrite bool_decide_eq_false_2 by discriminate.
  by rewrite IH, append_snoc.
Qed.

(** X19. With the on-screen keyboard alone, a term can be spelt, checked
    and judged correct exactly when it is not empty and all its characters
    are letters of the keyboard, in either case: a term with a space, a
    hyphen, an apostrophe or an accented letter cannot. *)
Theorem keyboard_spells_letters_only (question : TermData) :
  (∃ keys, Forall on_screen_key keys ∧
           sp_answered (checkAnswer (press_all keys)) = true ∧
           spelling_isCorrect question (checkAnswer (press_all keys)) = true)
  ↔ term question ≠ EmptyString ∧
    Forall (λ c, lower_char c ∈ keyboard_letters)
      (list_ascii_of_string (term question)).
Proof.
  split.
  - intros (keys & Hkeys & Hans & Hcorrect).
    destruct (press_all_letters keys Hkeys) as [Hno Hletters].
    set (st := press_all keys) in *.
    assert (trim (sp_userInput st) = sp_userInput st) as Htrim.
    { apply trim_fixed. eapply Forall_impl; [exact Hletters|].
      by intros c [? _]%keyboard_letter. }
    assert (toLowerCase (sp_userInput st) = sp_userInput st) as Hlower.
    { apply toLowerCase_fixed. eapply Forall_impl; [exact Hletters|].
      by intros c [_ ?]%keyboard_letter. }
    unfold checkAnswer in Hans, Hcorrect. rewrite Htrim in Hans, Hcorrect.
    case_bool_decide as Hempty; [congruence|].
    unfold spelling_isCorrect in Hcorrect. cbn [sp_userInput] in Hcorrect.
    apply bool_decide_eq_true_1 in Hcorrect. rewrite Htrim, Hlower in Hcorrect.
    split.
    + intros Ht. rewrite Ht in Hcorrect. simpl in Hcorrect. congruence.
    + assert (Forall (λ c, c ∈ keyboard_letters)
                (lower_char <$> list_ascii_of_string (term question))) as Hl.
      { by rewrite <- chars_toLowerCase, Hcorrect. }
      by apply Forall_fmap in Hl.
  - intros [Hne Hletters].
    exists ((λ c, String c EmptyString)
            <$> list_ascii_of_string (toLowerCase (term question))).
    assert (Forall (λ c, c ∈ keyboard_letters)
              (list_ascii_of_string (toLowerCase (term question)))) as Hl.
    { rewrite chars_toLowerCase. by apply Forall_fmap. }
    assert (trim (toLowerCase (term question)) = toLowerCase (term question))
      as Htrim.
    { apply trim_fixed. eapply Forall_impl; [exact Hl|].
      by intros c [? _]%keyboard_letter. }
    assert (toLowerCase (term question) ≠ EmptyString) as Hne'.
    { destruct (term question); [done|]. simpl. discriminate. }
    unfold press_all. rewrite press_letters.
    change (EmptyString +:+ toLowerCase (term question))
      with (toLowerCase (term question)).
    unfold checkAnswer. cbn [sp_userInput]. rewrite Htrim.
    rewrite bool_decide_eq_false_2 by done. split_and!; [|done|].
    + apply Forall_fmap. eapply Forall_impl; [exact Hl|].
      intros c Hc. right. by exists c.
    + unfold spelling_isCorrect. cbn [sp_userInput]. rewrite Htrim.
      apply bool_decide_eq_true_2. symmetry. apply toLowerCase_fixed.
      rewrite chars_toLowerCase. apply Forall_fmap.
      apply Forall_forall. intros c _. apply lower_char_idempotent.
Qed.

(** ** The ids of the questions *)

Lemma prefixed_inj prefix (i j : nat) :
  prefix +:+ pretty i = prefix +:+ pretty j → i = j.
Proof.
  induction prefix as [|c prefix IH]; simpl.
  - apply pretty_nat_inj.
  - intros [= ?]. auto.
Qed.

Lemma id_of_kind_mono m f w m' f' w' id :
  m ≤ m' → f ≤ f' → w ≤ w' → id_of_kind m f w id → id_of_kind m' f' w' id.
Proof.
  intros Hm Hf Hw.
  intros [?|[(i & ? & ?)|[(i & ? & ?)|(i & ? & ?)]]]; unfold id_of_kind;
    [auto|right; left|right; right; left|right; right; right];
    exists i; split; (done || lia).
Qed.

Lemma ids_below_mono m f w m' f' w' qs :
  m ≤ m' → f ≤ f' → w ≤ w' → ids_below m f w qs → ids_below m' f' w' qs.
Proof.
  intros Hm Hf Hw [Hnd Hall]. split; [done|].
  eapply Forall_impl; [exact Hall|]. intros q. by apply id_of_kind_mono.
Qed.

(** A question whose id is not yet among the possible ones can be
    added. *)
Lemma ids_below_snoc m f w m' f' w' qs q :
  ids_below m f w qs →
  ¬ id_of_kind m f w (question_id q) →
  id_of_kind m' f' w' (question_id q) →
  m ≤ m' → f ≤ f' → w ≤ w' →
  ids_below m' f' w' (qs ++ [q]).
Proof.
  intros [Hnd Hall] Hfresh Hq Hm Hf Hw. split.
  - rewrite fmap_app. apply NoDup_app. split_and!; [done| |apply NoDup_singleton].
    intros id (q' & -> & Hq')%list_elem_of_fmap Hin%list_elem_of_singleton.
    rewrite Forall_forall in Hall. specialize (Hall q' Hq').
    rewrite Hin in Hall. done.
  - apply Forall_app. split.
    + eapply Forall_impl; [exact Hall|]. intros q0.
      by apply id_of_kind_mono.
    + by apply Forall_singleton.
Qed.

Lemma ids_below_mcq index f w qs q :
  ids_below index f w qs →
  question_id q = "mcq-" +:+ pretty index →
  ids_below (S index) f w (qs ++ [q]).
Proof.
  intros Hids Hq. eapply ids_below_snoc; [exact Hids| | |lia..]; rewrite Hq.
  - intros [Hk|[(i & Hi & Hk)|[(i & Hi & Hk)|(i & Hi & Hk)]]];
      try (simpl in Hk; discriminate Hk).
    apply prefixed_inj in Hk. lia.
  - right. left. exists index. split; [lia|done].
Qed.

Lemma ids_below_fill m index w qs q :
  ids_below m index w qs →
  question_id q = "fill-" +:+ pretty index →
  ids_below m (S index) w (qs ++ [q]).
Proof.
  intros Hids Hq. eapply ids_below_snoc; [exact Hids| | |lia..]; rewrite Hq.
  - intros [Hk|[(i & Hi & Hk)|[(i & Hi & Hk)|(i & Hi & Hk)]]];
      try (simpl in Hk; discriminate Hk).
    apply prefixed_inj in Hk. lia.
  - right. right. left. exists index. split; [lia|done].
Qed.

Lemma ids_below_written m f index qs q :
  ids_below m f index qs →
  question_id q = "written-" +:+ pretty index →
  ids_below m f (S index) (qs ++ [q]).
Proof.
  intros Hids Hq. eapply ids_below_snoc; [exact Hids| | |lia..]; rewrite Hq.
  - intros [Hk|[(i & Hi & Hk)|[(i & Hi & Hk)|(i & Hi & Hk)]]];
      try (simpl in Hk; discriminate Hk).
    apply prefixed_inj in Hk. lia.
  - right. right. right. exists index. split; [lia|done].
Qed.

Section composer_ids.
Variable regexp_engine : string → string → Result string.

Lemma mcqQuestion_ids shuffledTerms t index f w qs g qs' g' :
  mcqQuestion shuffledTerms t index qs g = Ok (qs', g') →
  ids_below index f w qs → ids_below (S index) f w qs'.
Proof.
  unfold mcqQuestion. unfold_monad. intros Hmcq Hids.
  assert (ids_below (S index) f w qs) as Hsame
    by (apply (ids_below_mono index f w); (done || lia)).
  destruct (bool_decide (4 ≤ length shuffledTerms)); [|by simplify_eq].
  destruct (shuffleArray _ g) as [others g1].
  destruct (bool_decide _); [|by simplify_eq].
  destruct (first_definition t) as [d|]; [|done].
  destruct (shuffleArray (term t :: _) g1) as [options g2].
  injection Hmcq as <- <-. by apply ids_below_mcq.
Qed.

Lemma fillQuestion_ids t index m w qs qs' :
  fillQuestion regexp_engine t index qs = Ok qs' →
  ids_below m index w qs → ids_below m (S index) w qs'.
Proof.
  unfold fillQuestion. unfold_monad. intros Hfill Hids.
  destruct (truthy (first_example t)) as [example|].
  - destruct (blank_out _ _ _) as [sentence|]; [|done].
    injection Hfill as <-. by apply ids_below_fill.
  - injection Hfill as <-. apply (ids_below_mono m index w); (done || lia).
Qed.

Lemma forEach_body_ids shuffledTerms t index qs g qs' g' :
  forEach_body regexp_engine shuffledTerms t index qs g = Ok (qs', g') →
  ids_below index index index qs →
  ids_below (S index) (S index) (S index) qs'.
Proof.
  unfold forEach_body. unfold_monad. intros Hbody Hids.
  destruct (mcqQuestion _ _ _ _ _) as [[q1 g1]|] eqn:Hmcq; [|done].
  destruct (fillQuestion _ _ _ _) as [q2|] eqn:Hfill; [|done].
  injection Hbody as <- <-. unfold writtenQuestion.
  apply ids_below_written; [|done].
  eapply fillQuestion_ids; [exact Hfill|].
  eapply mcqQuestion_ids; [exact Hmcq|done].
Qed.

Lemma forEach_from_ids shuffledTerms index rest qs g qs' g' :
  forEach_from regexp_engine shuffledTerms index rest qs g = Ok (qs', g') →
  ids_below index index index qs →
  ∃ bound, ids_below bound bound bound qs'.
Proof.
  revert index qs g. induction rest as [|t rest IH]; intros index qs g; simpl.
  { unfold_monad. intros [= <- <-]. eauto. }
  unfold_monad.
  destruct (forEach_body _ _ _ _ _ _) as [[q1 g1]|] eqn:Hbody; [|done].
  intros Hrest Hids. eapply IH; [exact Hrest|].
  by eapply forEach_body_ids.
Qed.

Lemma matchQuestion_ids shuffledTerms q0 :
  matchQuestion shuffledTerms [] = Ok q0 → ids_below 0 0 0 q0.
Proof.
  unfold matchQuestion. unfold_monad.
  destruct (bool_decide _).
  2:{ intros [= <-]. split; constructor. }
  destruct (map_indexed _ _ _) as [matchTargets|]; [|done].
  destruct (pair_up _ _ _ _) as [correctPairs|]; [|done].
  intros [= <-]. split.
  - apply NoDup_singleton.
  - apply Forall_singleton. by left.
Qed.

Lemma producedQuestions_ids terms g shuffledTerms produced g' :
  producedQuestions regexp_engine terms g = Ok ((shuffledTerms, produced), g') →
  NoDup (question_id <$> produced).
Proof.
  unfold producedQuestions. unfold_monad.
  destruct (shuffleArray terms g) as [sh g1].
  destruct (matchQuestion sh []) as [q0|] eqn:Hq0; [|done].
  destruct (forEach_from _ _ _ _ _ _) as [[qs g2]|] eqn:Hfor; [|done].
  intros [= <- <- <-].
  apply matchQuestion_ids in Hq0.
  by destruct (forEach_from_ids _ _ _ _ _ _ _ Hfor Hq0) as [bound [Hnd _]].
Qed.

End composer_ids.

(** X20. The questions of a composed assessment have pairwise different
    ids, so that an answer stored under the id of a question is the answer
    of that question and of no other. *)
Theorem question_ids_distinct (regexp_engine : string → string → Result string)
    (terms : list TermData) (g g' : RNG) (generatedAssessment : AssessmentData) :
  generateAssessmentFromTerms regexp_engine terms g
  = Ok (generatedAssessment, g') →
  NoDup (question_id <$> questions generatedAssessment) ∧
  ∀ q q', q ∈ questions generatedAssessment →
          q' ∈ questions generatedAssessment →
          question_id q = question_id q' → q = q'.
Proof.
  rewrite generate_unfold.
  destruct (producedQuestions _ _ _) as [[[sh produced] g1]|] eqn:Hp; [|done].
  apply producedQuestions_ids in Hp. intros [= <- <-]. cbn [questions].
  assert (NoDup (question_id
                   <$> take (targetQuestionCount (length terms))
                         (shuffleArray produced g1).1)) as Hnd.
  { rewrite fmap_take. eapply sublist_NoDup; [|apply sublist_take].
    by rewrite shuffleArray_Permutation. }
  split; [done|]. intros q q' Hq Hq' Hid.
  apply list_elem_of_lookup_1 in Hq as [i Hi], Hq' as [j Hj].
  assert (i = j) as ->; [|congruence].
  eapply NoDup_lookup; [exact Hnd| |]; rewrite list_lookup_fmap.
  - by rewrite Hi.
  - rewrite Hj. simpl. by rewrite Hid.
Qed.

Lemma question_ids_distinct_witness :
  ∃ generatedAssessment g',
    generateAssessmentFromTerms no_engine four_terms sample_rng
    = Ok (generatedAssessment, g') ∧
    NoDup (question_id <$> questions generatedAssessment).
Proof.
  destruct (generate_ok no_engine four_terms sample_rng)
    as (generatedAssessment & g' & Hgen).
  - repeat constructor; done.
  - repeat constructor; vm_compute; eauto.
  - exists generatedAssessment, g'. split; [done|].
    apply (question_ids_distinct no_engine four_terms sample_rng g'
             generatedAssessment Hgen).
Defined.

(** ** Full marks *)

Lemma expected_answer_shown (answers : gmap string Answer)
    (q : AssessmentQuestion) :
  answers !! question_id q = Some (expected_answer q) →
  fill_trimmed q →
  answer_fits q (expected_answer q) ∧ shown_correct answers q = true.
Proof.
  intros Ha Htrim. unfold shown_correct. rewrite Ha.
  destruct q as [id question options correctAnswer|id sentence correctAnswer
                |id instruction items targets correctPairs|id prompt modelAnswer];
    simpl in *.
  - split; [done|]. unfold mcq_view_isCorrect. by apply bool_decide_eq_true_2.
  - split; [done|]. apply bool_decide_eq_true_2. by rewrite Htrim.
  - split; [done|].
    pose proof (view_isCorrect_all_matched correctPairs correctPairs) as Hview.
    simpl in Hview. rewrite Hview. by apply all_matched_spec.
  - done.
Qed.

Lemma filter_length_all {A} (P : A → Prop) `{!∀ x, Decision (P x)} (l : list A) :
  length (filter P l) = length l → Forall P l.
Proof.
  induction l as [|x l IH]; [constructor|].
  pose proof (length_filter P l) as Hle.
  destruct (decide (P x)) as [Hx|Hx].
  - rewrite filter_cons_True by done. simpl. intros [= Hlen]. auto.
  - rewrite filter_cons_False by done. simpl. lia.
Qed.

(** X21. Full marks can be had for an assessment whose questions have
    different ids exactly when no fill-in-the-blank question expects an
    answer with white space around it: the answers that give each question
    its expected answer then score the number of questions. *)
Theorem full_marks_iff_fill_answers_trimmed (data : AssessmentData) :
  NoDup (question_id <$> questions data) →
  (∃ answers,
     answers_fit data answers ∧
     handleSubmit {| assessmentData := Some data; status := taking;
                     answers := answers; score := 0 |}
     = Ok {| assessmentData := Some data; status := submitted;
             answers := answers; score := length (questions data) |})
  ↔ Forall fill_trimmed (questions data).
Proof.
  intros Hnd. split.
  - intros (given & Hfit & Hsubmit). unfold handleSubmit in Hsubmit.
    cbn [assessmentData answers] in Hsubmit.
    rewrite grade_all_shown in Hsubmit by exact Hfit.
    simpl in Hsubmit. injection Hsubmit as Hcount.
    apply Forall_forall. intros q Hq.
    assert (shown_correct given q = true) as Hshown.
    { apply filter_length_all in Hcount. rewrite Forall_forall in Hcount.
      by apply Hcount. }
    destruct q as [| id sentence correctAnswer | |]; try done.
    unfold shown_correct, fill_view_isCorrect in Hshown. simpl in *.
    destruct (as_string _) as [typed|]; [|done].
    apply bool_decide_eq_true_1 in Hshown. by eapply trimmed_of_match.
  - intros Htrim.
    set (given := list_to_map ((λ q, (question_id q, expected_answer q))
                               <$> questions data) : gmap string Answer).
    assert (∀ q, q ∈ questions data →
                 given !! question_id q = Some (expected_answer q)) as Hlook.
    { intros q Hq. apply elem_of_list_to_map.
      - by rewrite <- list_fmap_compose.
      - by apply (list_elem_of_fmap_2 (λ q, (question_id q, expected_answer q))). }
    rewrite Forall_forall in Htrim.
    exists given. split.
    + intros q a Hq Ha. rewrite (Hlook q Hq) in Ha. injection Ha as <-.
      by apply (expected_answer_shown given q); auto.
    + unfold handleSubmit. cbn [assessmentData answers].
      rewrite grade_all_shown.
      2:{ intros q a Hq Ha. rewrite (Hlook q Hq) in Ha. injection Ha as <-.
          by apply (expected_answer_shown given q); auto. }
      simpl. do 2 f_equal. rewrite filter_all; [done|].
      apply Forall_forall. intros q Hq.
      by apply expected_answer_shown; auto.
Qed.

Lemma full_marks_iff_fill_answers_trimmed_witness :
  ∃ answers,
    handleSubmit
      {| assessmentData :=
           Some {| title := "Vocabulary Assessment (2 Questions)";
                   questions := [FillBlank "fill-0" "A _____ walk." "brisk";
                                 Written "written-0" "Write a sentence."
                                   "A model."] |};
         status := taking; answers := answers; score := 0 |}
    = Ok {| assessmentData :=
              Some {| title := "Vocabulary Assessment (2 Questions)";
                      questions := [FillBlank "fill-0" "A _____ walk." "brisk";
                                    Written "written-0" "Write a sentence."
                                      "A model."] |};
            status := submitted; answers := answers; score := 2 |}.
Proof.
  destruct (proj2 (full_marks_iff_fill_answers_trimmed
                     {| title := "Vocabulary Assessment (2 Questions)";
                        questions := [FillBlank "fill-0" "A _____ walk." "brisk";
                                      Written "written-0" "Write a sentence."
                                        "A model."] |}
                     ltac:(compute_done)))
    as (answers & _ & Hsubmit).
  - repeat constructor.
  - by exists answers.
Defined.

(** ** The prompt of the sentence quiz *)

(** X22. In the sentence quiz, a term that has a first example that is
    not empty, and whose text is not empty and free of regular-expression
    syntax characters, is asked with that example as the prompt, the
    emphasis markers taken out and then every occurrence of the text,
    whatever its case, taken from left to right, replaced by six
    underscores; no other sentence fits that description. *)
Theorem sentence_prompt_plain_text
    (regexp_engine : string → string → Result string) (question : TermData)
    (example : string) :
  truthy (first_example question) = Some example →
  term question ≠ EmptyString →
  Forall (λ c, is_syntax_char c = false)
    (list_ascii_of_string (term question)) →
  ∃ stripped prompt,
    replaced (λ m, m = "**") EmptyString example stripped ∧
    replaced (same_ignoring_case (term question)) "______" stripped prompt ∧
    (∀ other,
       replaced (same_ignoring_case (term question)) "______" stripped other →
       other = prompt) ∧
    choice_prompt regexp_engine sentence question = Ok prompt.
Proof.
  intros Hex Hne Hplain. unfold choice_prompt, compile.
  rewrite Hex, (atoms_of_plain _ Hplain).
  assert (replaced (same_ignoring_case (term question)) "______"
            (replace_all false [Lit "*"; Lit "*"] EmptyString example)
            (replace_all true (Lit <$> list_ascii_of_string (term question))
               "______"
               (replace_all false [Lit "*"; Lit "*"] EmptyString example)))
    as Hblank.
  { eapply replaced_ext; [apply agrees_ignoring_case|].
    apply replace_all_replaced. by destruct (term question). }
  eexists _, _. split_and!; [|exact Hblank| |reflexivity].
  - eapply replaced_ext; [apply agrees_stars|].
    by apply (replace_all_replaced false ["*"; "*"]%char).
  - intros other Hother.
    eapply (replaced_functional _ _ (String.length (term question)));
      [|apply same_ignoring_case_length|exact Hother|exact Hblank].
    destruct (term question); simpl; [done|lia].
Qed.

Lemma sentence_prompt_plain_text_witness :
  choice_prompt no_engine sentence candid = Ok "She gave a ______ answer.".
Proof.
  destruct (sentence_prompt_plain_text no_engine candid
              "She gave a **candid** answer.")
    as (stripped & prompt & _ & _ & _ & Hprompt).
  - reflexivity.
  - done.
  - repeat constructor.
  - rewrite Hprompt. f_equal.
    assert (Ok prompt = choice_prompt no_engine sentence candid) as Heq
      by done.
    vm_compute in Heq. by injection Heq.
Defined.
